(** * 24-Point-Master: the solver and the dealer of [src/utils/gameLogic.ts]

    A shallow embedding of [generateDeck], [shuffleDeck], [solve24] (with its
    inner [findSolution] and [findFirstOperation]) and [drawCards], and the
    properties the specification states about them.

    Modelling choices.
    - A JavaScript [number] is an IEEE 754 binary64 value: Rocq's primitive
      [float], whose [+], [-], [*], [/], [abs] and [<?] are the same operations
      (round to nearest even, comparisons with NaN false).
    - A JavaScript string is a [string] holding its UTF-8 bytes.
    - [Number.prototype.toString] and template-literal conversion of a number
      are one built-in that is no part of the repository; it is the section
      variable [Number_toString].  Where a statement needs its result
      on particular numbers, it says so in a hypothesis.
    - An array is a [list]; [nodes[i]] is [nth_error], and reading a field of
      [undefined] throws [TypeError].
    - The recursion of [findSolution] is not structural; it runs on fuel, and
      running out of fuel is the failure [OutOfFuel], never a result.
    - [Math.random] is the section variable [Math_random]: its k-th call
      returns [Math_random k], and the number of calls made so far is the
      state the dealer threads.  [shuffleDeck] is modelled where the index it
      draws lies inside the array, as it does for a source within [0, 1);
      outside, the model stops with [OutOfModel]. *)

From Stdlib Require Import ZArith List String Ascii Bool Lia Arith.
From Stdlib Require Import Permutation.
From Stdlib Require Import Floats.PrimFloat Floats.FloatOps Floats.SpecFloat.
From Stdlib Require Import Floats.FloatAxioms.
From Stdlib Require Import DecimalString.
From Stdlib Require Import QArith.
Import ListNotations.

Local Close Scope Q_scope.


(** ** Outcomes: a value, or a thrown failure *)

Inductive failure : Type :=
| OutOfFuel       (* the model ran out of fuel: not a behaviour of the program *)
| TypeError       (* a field of [undefined] was read *)
| OutOfModel.     (* [Math.random] left [0, 1): an index outside the array *)

Inductive outcome (A : Type) : Type :=
| Returns (a : A)
| Throws (e : failure).

Arguments Returns {A} a.
Arguments Throws {A} e.

(** A [for] loop whose body may [return] from the enclosing function: the
    body yields [Some r] for [return r] and [None] to fall through to the next
    iteration ([continue] included). *)
Fixpoint for_of {A R : Type} (l : list A) (body : A -> outcome (option R))
  : outcome (option R) :=
  match l with
  | [] => Returns None
  | x :: l' =>
      match body x with
      | Throws e => Throws e
      | Returns (Some r) => Returns (Some r)
      | Returns None => for_of l' body
      end
  end.

(** [arr.filter((_, idx) => p idx)] *)
Fixpoint filter_idx {A : Type} (p : nat -> bool) (from : nat) (l : list A) : list A :=
  match l with
  | [] => []
  | x :: l' => if p from then x :: filter_idx p (S from) l' else filter_idx p (S from) l'
  end.

(** ** Strings *)

Local Open Scope string_scope.

(** [s.replace(/c/g, by)] for a one-character pattern *)
Fixpoint replaceAll (c : ascii) (by_ : string) (s : string) : string :=
  match s with
  | EmptyString => EmptyString
  | String x s' =>
      if Ascii.eqb x c then by_ ++ replaceAll c by_ s'
      else String x (replaceAll c by_ s')
  end.

(** A string is truthy when it is not empty. *)
Definition truthy (s : string) : bool :=
  match s with
  | EmptyString => false
  | String _ _ => true
  end.

Definition times_sign : string := "×".
Definition division_sign : string := "÷".

(** ** The expression tree *)

#[warnings="-register-all"]
Inductive ExprNode : Type :=
  MkExprNode {
      val : float;
      str : string;
      opLevel : nat;            (* 0: num, 1: +-, 2: * / *)
      left : option ExprNode;
      right : option ExprNode;
      opStr : option string
    }.

Record Operation : Type :=
  MkOperation {
      op : string;
      func : float -> float -> float;
      level : nat
    }.

Record SolverResult : Type :=
  MkSolverResult {
      solvable : bool;
      solution : option string;
      firstStepHint : option string
    }.

Definition EPSILON : float := 0x1.a36e2eb1c432dp-14%float.   (* 0.0001 *)

Definition ops : list Operation :=
  [ MkOperation "+" PrimFloat.add 1;
    MkOperation "-" PrimFloat.sub 1;
    MkOperation "*" PrimFloat.mul 2;
    MkOperation "/" PrimFloat.div 2 ].

(** [Math.abs(n.val - 24) < EPSILON] *)
Definition near24 (n : ExprNode) : bool :=
  (abs (val n - 24) <? EPSILON)%float.

(** [`(${s})`] *)
Definition parens (s : string) : string := "(" ++ s ++ ")".

(** The body of the operator loop up to the recursive call: the composite
    built from [a], [b] and [operation]. *)
Definition newNode (a b : ExprNode) (operation : Operation) : ExprNode :=
  let newVal := func operation (val a) (val b) in
  let leftStr :=
    if (0 <? opLevel a)%nat && (opLevel a <? level operation)%nat
    then parens (str a) else str a in
  let rightStr :=
    if (0 <? opLevel b)%nat &&
       ((opLevel b <? level operation)%nat ||
        ((opLevel b =? level operation)%nat &&
         ((op operation =? "-") || (op operation =? "/"))))
    then parens (str b) else str b in
  let newStr := leftStr ++ " " ++ op operation ++ " " ++ rightStr in
  MkExprNode newVal newStr (level operation) (Some a) (Some b) (Some (op operation)).

(** [operation.op === '/' && Math.abs(b.val) < EPSILON] *)
Definition skipped (b : ExprNode) (operation : Operation) : bool :=
  (op operation =? "/") && (abs (val b) <? EPSILON)%float.

(** [nodes.filter((_, idx) => idx !== i && idx !== j)] *)
Definition remaining_of (nodes : list ExprNode) (i j : nat) : list ExprNode :=
  filter_idx (fun idx => negb (idx =? i)%nat && negb (idx =? j)%nat) 0 nodes.

Fixpoint findSolution (fuel : nat) (nodes : list ExprNode)
  : outcome (option ExprNode) :=
  match fuel with
  | O => Throws OutOfFuel
  | S fuel' =>
      if (List.length nodes =? 1)%nat then
        match nth_error nodes 0 with
        | None => Throws TypeError
        | Some n0 => if near24 n0 then Returns (Some n0) else Returns None
        end
      else
        for_of (seq 0 (List.length nodes)) (fun i =>
          for_of (seq 0 (List.length nodes)) (fun j =>
            if (i =? j)%nat then Returns None
            else
              match nth_error nodes i, nth_error nodes j with
              | Some a, Some b =>
                  let remaining := remaining_of nodes i j in
                  for_of ops (fun operation =>
                    if skipped b operation then Returns None
                    else findSolution fuel' (remaining ++ [newNode a b operation])%list)
              | _, _ => Throws TypeError
              end))
  end.

Section Solver.

(** The built-in conversion of a number to a string. *)
Variable Number_toString : float -> string.

Definition leafNode (n : float) : ExprNode :=
  MkExprNode n (Number_toString n) 0 None None None.

(** [`${x}`] of an optional string: [undefined] prints as its name. *)
Definition show_opt (o : option string) : string :=
  match o with
  | Some s => s
  | None => "undefined"
  end.

(** [node.opStr === '*' ? '×' : node.opStr === '/' ? '÷' : node.opStr] *)
Definition opSymbol (o : option string) : option string :=
  match o with
  | Some s => if s =? "*" then Some times_sign
              else if s =? "/" then Some division_sign
              else Some s
  | None => None
  end.

Fixpoint findFirstOperation (node : ExprNode) : string :=
  match node with
  | MkExprNode _ _ _ (Some l) (Some r) o =>
      match left l, left r with
      | None, None =>
          Number_toString (val l) ++ " " ++ show_opt (opSymbol o) ++ " " ++
          Number_toString (val r)
      | _, _ =>
          let leftResult := findFirstOperation l in
          if truthy leftResult then leftResult else findFirstOperation r
      end
  | _ => ""
  end.

Definition prettySolution (s : string) : string :=
  replaceAll "/" division_sign (replaceAll "*" times_sign s).

Definition initialNodes (numbers : list float) : list ExprNode :=
  map leafNode numbers.

Definition solve24 (numbers : list float) : outcome SolverResult :=
  match findSolution (S (List.length numbers)) (initialNodes numbers) with
  | Throws e => Throws e
  | Returns None => Returns (MkSolverResult false None None)
  | Returns (Some root) =>
      Returns (MkSolverResult true
                 (Some (prettySolution (str root)))
                 (Some (findFirstOperation root)))
  end.

End Solver.

(** ** Numbers that are integers *)

(** The binary64 value nearest to an integer (the integer itself below 2^53).
    Both branches round to nearest; the first is the primitive conversion,
    which computes faster. *)
Definition Z2F (z : Z) : float :=
  if ((0 <=? z) && (z <? 9223372036854775808))%Z
  then PrimFloat.of_uint63 (Uint63Axioms.of_Z z)
  else SF2Prim (binary_normalize prec emax z 0 false).

(** The integer part of a finite number, towards zero. *)
Definition F2Z (x : float) : Z :=
  match Prim2SF x with
  | S754_finite s m e =>
      let a := match e with
               | Z0 => Zpos m
               | Zpos p => Z.shiftl (Zpos m) (Zpos p)
               | Zneg p => Z.shiftr (Zpos m) (Zpos p)
               end in
      if s then Z.opp a else a
  | _ => 0%Z
  end.

(** Decimal digits of an integer, as JavaScript prints an integer-valued
    number of magnitude below 1e21. *)
Definition decimal (z : Z) : string := NilZero.string_of_int (Z.to_int z).

(** An instance of the conversion for integer-valued numbers. *)
Definition integer_toString (x : float) : string := decimal (F2Z x).

(** ** Standard infix arithmetic on a string

    The reading of a solution string that the specification appeals to:
    decimal integer operands, the operators [+], [-], [×], [÷], parentheses,
    [×] and [÷] binding tighter than [+] and [-], every operator associating
    to the left.  This part follows the specification's words, not the
    source. *)

Module Infix.

Inductive binop : Type := Add | Sub | Mul | Div.

Inductive token : Type :=
| TNum (z : Z)
| TOp (o : binop)
| TLParen
| TRParen.

Inductive expr : Type :=
| Num (z : Z)
| Bin (o : binop) (l r : expr).

Definition digit_of (c : ascii) : option Z :=
  match c with
  | "0"%char => Some 0%Z
  | "1"%char => Some 1%Z
  | "2"%char => Some 2%Z
  | "3"%char => Some 3%Z
  | "4"%char => Some 4%Z
  | "5"%char => Some 5%Z
  | "6"%char => Some 6%Z
  | "7"%char => Some 7%Z
  | "8"%char => Some 8%Z
  | "9"%char => Some 9%Z
  | _ => None
  end.

(** The bytes of the two signs: [×] is 195 151 and [÷] is 195 183. *)
Definition sign_lead : ascii := Eval compute in ascii_of_nat 195.
Definition times_trail : ascii := Eval compute in ascii_of_nat 151.
Definition division_trail : ascii := Eval compute in ascii_of_nat 183.

(** [acc] is the operand being read, if any. *)
Fixpoint tokenize_from (acc : option Z) (s : string) : option (list token) :=
  let flush (k : option (list token)) : option (list token) :=
    match acc, k with
    | Some z, Some ts => Some (TNum z :: ts)
    | None, Some ts => Some ts
    | _, None => None
    end in
  match s with
  | EmptyString => flush (Some [])
  | String c s' =>
      match digit_of c with
      | Some d =>
          tokenize_from (Some (match acc with Some z => 10 * z + d | None => d end)%Z) s'
      | None =>
          if Ascii.eqb c " " then flush (tokenize_from None s')
          else if Ascii.eqb c "+" then
            flush (option_map (cons (TOp Add)) (tokenize_from None s'))
          else if Ascii.eqb c "-" then
            flush (option_map (cons (TOp Sub)) (tokenize_from None s'))
          else if Ascii.eqb c "(" then
            flush (option_map (cons TLParen) (tokenize_from None s'))
          else if Ascii.eqb c ")" then
            flush (option_map (cons TRParen) (tokenize_from None s'))
          else if Ascii.eqb c sign_lead then
            (* the first byte of a two-byte sign *)
            match s' with
            | String c' s'' =>
                if Ascii.eqb c' times_trail then
                  flush (option_map (cons (TOp Mul)) (tokenize_from None s''))
                else if Ascii.eqb c' division_trail then
                  flush (option_map (cons (TOp Div)) (tokenize_from None s''))
                else None
            | EmptyString => None
            end
          else None
      end
  end.

Definition tokenize (s : string) : option (list token) := tokenize_from None s.

(** Binding strength: 0 for [+] and [-], 1 for [×] and [÷]. *)
Definition strength (o : binop) : nat :=
  match o with
  | Add | Sub => 0
  | Mul | Div => 1
  end.

(** [parse fuel lvl ts] reads the longest expression of strength [lvl] or
    more; level 2 is an operand or a parenthesised expression.
    [rest] extends [acc] to the right, which is left association. *)
Fixpoint parse (fuel : nat) (lvl : nat) (ts : list token) {struct fuel}
  : option (expr * list token) :=
  match fuel with
  | O => None
  | S f =>
      match lvl with
      | S (S _) =>
          match ts with
          | TNum z :: r => Some (Num z, r)
          | TLParen :: r =>
              match parse f 0 r with
              | Some (e, TRParen :: r') => Some (e, r')
              | _ => None
              end
          | _ => None
          end
      | _ =>
          match parse f (S lvl) ts with
          | Some (e, r) => rest f lvl e r
          | None => None
          end
      end
  end
with rest (fuel : nat) (lvl : nat) (acc : expr) (ts : list token) {struct fuel}
  : option (expr * list token) :=
  match fuel with
  | O => None
  | S f =>
      match ts with
      | TOp o :: r =>
          if (strength o =? lvl)%nat then
            match parse f (S lvl) r with
            | Some (e, r') => rest f lvl (Bin o acc e) r'
            | None => None
            end
          else Some (acc, ts)
      | _ => Some (acc, ts)
      end
  end.

Definition read (s : string) : option expr :=
  match tokenize s with
  | Some ts =>
      match parse (4 * List.length ts + 4) 0 ts with
      | Some (e, []) => Some e
      | _ => None
      end
  | None => None
  end.

(** The value in binary64 arithmetic, as JavaScript computes it. *)
Fixpoint value (e : expr) : float :=
  match e with
  | Num z => Z2F z
  | Bin Add l r => (value l + value r)%float
  | Bin Sub l r => (value l - value r)%float
  | Bin Mul l r => (value l * value r)%float
  | Bin Div l r => (value l / value r)%float
  end.

Definition evaluate (s : string) : option float := option_map value (read s).

(** The value in exact rational arithmetic; a division by zero has none. *)
Fixpoint exact (e : expr) : option Q :=
  match e with
  | Num z => Some (inject_Z z)
  | Bin o l r =>
      match exact l, exact r with
      | Some x, Some y =>
          match o with
          | Add => Some (Qred (x + y))
          | Sub => Some (Qred (x - y))
          | Mul => Some (Qred (x * y))
          | Div => if Qeq_bool y 0 then None else Some (Qred (x / y))
          end
      | _, _ => None
      end
  end.

Definition evaluate_exact (s : string) : option Q :=
  match read s with
  | Some e => exact e
  | None => None
  end.

Definition within_eps_of_24 (v : float) : bool :=
  (abs (v - 24) <? EPSILON)%float.

End Infix.

(** ** The search space, as the specification describes it

    These definitions restate the search in the specification's words; the
    theorems below compare them with [findSolution]. *)

(** The frontiers the recursive case recurses on, in the order of the three
    loops: [i] ascending, [j] ascending without [i], the operators in the
    order of [ops] without a guarded division. *)
Definition candidates (nodes : list ExprNode) : list (list ExprNode) :=
  flat_map (fun i =>
    flat_map (fun j =>
      if (i =? j)%nat then []
      else
        match nth_error nodes i, nth_error nodes j with
        | Some a, Some b =>
            flat_map (fun operation =>
              if skipped b operation then []
              else [(remaining_of nodes i j ++ [newNode a b operation])%list]) ops
        | _, _ => []
        end) (seq 0 (List.length nodes))) (seq 0 (List.length nodes)).

(** The frontier built from positions [i] and [j] and an operator, if the
    search builds one: none when [i] is [j], none for a guarded division. *)
Definition combine_at (nodes : list ExprNode) (ijo : nat * (nat * Operation))
  : list (list ExprNode) :=
  let '(i, (j, operation)) := ijo in
  if (i =? j)%nat then []
  else
    match nth_error nodes i, nth_error nodes j with
    | Some a, Some b =>
        if skipped b operation then []
        else [(remaining_of nodes i j ++ [newNode a b operation])%list]
    | _, _ => []
    end.

(** The frontiers of size one below [nodes], depth first and left to right. *)
Fixpoint terminals (depth : nat) (nodes : list ExprNode) : list ExprNode :=
  match depth with
  | O => []
  | S d =>
      if (List.length nodes =? 1)%nat then nodes
      else flat_map (terminals d) (candidates nodes)
  end.

(** The prefix of [l] that ends with its first element satisfying [p]. *)
Fixpoint upto_first {A : Type} (p : A -> bool) (l : list A) : list A :=
  match l with
  | [] => []
  | x :: l' => if p x then [x] else x :: upto_first p l'
  end.

(** [findSolution] with a log of the size-one frontiers it tests, in the order
    it tests them.  [for_of_log] is [for_of] with the log threaded through. *)
Fixpoint for_of_log {A R L : Type} (l : list A)
  (body : A -> list L * outcome (option R)) : list L * outcome (option R) :=
  match l with
  | [] => ([], Returns None)
  | x :: l' =>
      match body x with
      | (w, Throws e) => (w, Throws e)
      | (w, Returns (Some r)) => (w, Returns (Some r))
      | (w, Returns None) =>
          let (w', res) := for_of_log l' body in ((w ++ w')%list, res)
      end
  end.

Fixpoint findSolution_log (fuel : nat) (nodes : list ExprNode)
  : list ExprNode * outcome (option ExprNode) :=
  match fuel with
  | O => ([], Throws OutOfFuel)
  | S fuel' =>
      if (List.length nodes =? 1)%nat then
        match nth_error nodes 0 with
        | None => ([], Throws TypeError)
        | Some n0 =>
            if near24 n0 then ([n0], Returns (Some n0)) else ([n0], Returns None)
        end
      else
        for_of_log (seq 0 (List.length nodes)) (fun i =>
          for_of_log (seq 0 (List.length nodes)) (fun j =>
            if (i =? j)%nat then ([], Returns None)
            else
              match nth_error nodes i, nth_error nodes j with
              | Some a, Some b =>
                  let remaining := remaining_of nodes i j in
                  for_of_log ops (fun operation =>
                    if skipped b operation then ([], Returns None)
                    else findSolution_log fuel' (remaining ++ [newNode a b operation]))
              | _, _ => ([], Throws TypeError)
              end))
  end.

(** ** The solution tree *)

(** The original numbers of a tree, left to right. *)
Fixpoint leaves (n : ExprNode) : list float :=
  match n with
  | MkExprNode _ _ _ (Some l) (Some r) _ => (leaves l ++ leaves r)%list
  | MkExprNode v _ _ _ _ _ => [v]
  end.

(** The nodes of a tree: the node, then its left subtree, then its right. *)
Fixpoint subtrees (n : ExprNode) : list ExprNode :=
  match n with
  | MkExprNode _ _ _ (Some l) (Some r) _ => (n :: subtrees l ++ subtrees r)%list
  | _ => [n]
  end.

Definition isComposite (n : ExprNode) : bool :=
  match left n with
  | Some _ => true
  | None => false
  end.

(** A composite whose two children are both leaves. *)
Definition isLeafPair (n : ExprNode) : bool :=
  match left n, right n with
  | Some l, Some r => negb (isComposite l) && negb (isComposite r)
  | _, _ => false
  end.

(** The sign shown for an operator of [ops]. *)
Definition glyph (o : string) : string :=
  if o =? "*" then times_sign else if o =? "/" then division_sign else o.

(** [s] occurs in [t] as a run of consecutive characters. *)
Definition occurs_in (s t : string) : Prop :=
  exists pre post : string, t = pre ++ s ++ post.

(** A number that is neither NaN nor an infinity. *)
Definition isFinite (x : float) : bool :=
  match classify x with
  | FloatClass.NaN | FloatClass.PInf | FloatClass.NInf => false
  | _ => true
  end.

Section Trees.

Variable Number_toString : float -> string.

(** The trees the solver builds: leaves made by [initialNodes], composites
    made by the operator loop, which never divides by a guarded divisor. *)
Inductive built : ExprNode -> Prop :=
| built_leaf (v : float) : built (leafNode Number_toString v)
| built_composite (a b : ExprNode) (operation : Operation) :
    built a -> built b -> In operation ops -> skipped b operation = false ->
    built (newNode a b operation).

(** The text of a child under an operator, in the specification's words:
    the left child is parenthesized iff it is a composite of a level below
    the operator's; the right child iff it is a composite of a level below
    the operator's, or of the same level under [-] or [/]. *)
Definition leftText (a : ExprNode) (operation : Operation) : string :=
  if isComposite a && (opLevel a <? level operation)%nat
  then parens (str a) else str a.

Definition rightText (b : ExprNode) (operation : Operation) : string :=
  if isComposite b &&
     ((opLevel b <? level operation)%nat ||
      ((opLevel b =? level operation)%nat &&
       ((op operation =? "-") || (op operation =? "/"))))
  then parens (str b) else str b.

(** The hint for a composite of two leaves. *)
Definition hintText (n : ExprNode) : string :=
  match left n, right n, opStr n with
  | Some l, Some r, Some o =>
      Number_toString (val l) ++ " " ++ glyph o ++ " " ++ Number_toString (val r)
  | _, _, _ => ""
  end.

(** Arithmetic expressions over [+], [-], [×], [÷] and parentheses, with
    the list of their operands from left to right. *)
Inductive arith : list float -> string -> Prop :=
| arith_operand (x : float) : arith [x] (Number_toString x)
| arith_binary (sym : string) (xs ys : list float) (l r : string) :
    In sym ["+"; "-"; times_sign; division_sign] ->
    arith xs l -> arith ys r ->
    arith (xs ++ ys)%list (l ++ " " ++ sym ++ " " ++ r)
| arith_parens (xs : list float) (s : string) :
    arith xs s -> arith xs (parens s).

(** The texts of these numbers hold no [*] and no [/], so that
    [prettySolution] leaves them as they are. *)
Definition plain (numbers : list float) : Prop :=
  Forall (fun x => prettySolution (Number_toString x) = Number_toString x) numbers.

End Trees.

(** ** The dealer *)

Inductive Suit : Type := Hearts | Diamonds | Clubs | Spades.

Definition Suit_text (s : Suit) : string :=
  match s with
  | Hearts => "♥"
  | Diamonds => "♦"
  | Clubs => "♣"
  | Spades => "♠"
  end.

Inductive Color : Type := red | black.

Inductive Difficulty : Type := Easy | Hard.

Record PlayingCard : Type :=
  MkPlayingCard {
      id : string;
      value : float;
      suit : Suit;
      color : Color
    }.

(** Computations that call [Math.random]: the state is the number of calls
    made so far. *)
Definition M (A : Type) : Type := nat -> outcome (A * nat).

Definition ret {A : Type} (a : A) : M A := fun k => Returns (a, k).

Definition throw {A : Type} (e : failure) : M A := fun _ => Throws e.

Definition bind {A B : Type} (m : M A) (f : A -> M B) : M B :=
  fun k =>
    match m k with
    | Returns (a, k') => f a k'
    | Throws e => Throws e
    end.

Notation "x <- m ;; f" := (bind m (fun x => f))
  (at level 61, m at next level, right associativity).

(** A loop that pushes one element per iteration. *)
Fixpoint for_push {A B : Type} (l : list A) (body : A -> M (list B)) : M (list B) :=
  match l with
  | [] => ret []
  | x :: l' =>
      ys <- body x ;;
      zs <- for_push l' body ;;
      ret (ys ++ zs)%list
  end.

(** [arr[i] = x] inside the array *)
Fixpoint update_nth {A : Type} (i : nat) (x : A) (l : list A) : list A :=
  match l, i with
  | [], _ => []
  | _ :: l', O => x :: l'
  | y :: l', S i' => y :: update_nth i' x l'
  end.

(** [[arr[i], arr[j]] = [arr[j], arr[i]]] for two indices inside the array *)
Definition swap {A : Type} (i j : nat) (l : list A) : option (list A) :=
  match nth_error l i, nth_error l j with
  | Some x, Some y => Some (update_nth j x (update_nth i y l))
  | _, _ => None
  end.

(** [Math.floor x], on the finite numbers that are not below zero. *)
Definition floor (x : float) : option Z :=
  match Prim2SF x with
  | S754_zero _ => Some 0%Z
  | S754_finite false m e =>
      Some (match e with
            | Z0 => Zpos m
            | Zpos p => Z.shiftl (Zpos m) (Zpos p)
            | Zneg p => Z.shiftr (Zpos m) (Zpos p)
            end)
  | _ => None
  end.

(** [Math.floor x] as an index into an array of length [len], when it is
    one. *)
Definition floor_index (x : float) (len : nat) : option nat :=
  match floor x with
  | Some j => if (j <? Z.of_nat len)%Z then Some (Z.to_nat j) else None
  | None => None
  end.

(** [arr.slice(0, count)] for an integer [count] *)
Definition slice0 {A : Type} (count : Z) (l : list A) : list A :=
  let len := Z.of_nat (List.length l) in
  let final := if (count <? 0)%Z then Z.max (len + count) 0 else Z.min count len in
  firstn (Z.to_nat final) l.

Definition number_of_nat (i : nat) : float := Z2F (Z.of_nat i).

Section Dealer.

Variable Number_toString : float -> string.

(** [Math_random k] is what the k-th call of [Math.random] returns. *)
Variable Math_random : nat -> float.

Definition random : M float := fun k => Returns (Math_random k, S k).

Definition suits : list Suit := [Hearts; Diamonds; Clubs; Spades].

Definition maxVal (difficulty : Difficulty) : nat :=
  match difficulty with
  | Hard => 13
  | Easy => 10
  end.

Definition newCard (i : nat) (s : Suit) (r : float) : PlayingCard :=
  MkPlayingCard
    (Number_toString (number_of_nat i) ++ "-" ++ Suit_text s ++ "-" ++ Number_toString r)
    (number_of_nat i)
    s
    (match s with
     | Hearts | Diamonds => red
     | _ => black
     end).

Definition generateDeck (difficulty : Difficulty) : M (list PlayingCard) :=
  for_push (seq 1 (maxVal difficulty)) (fun i =>
    for_push suits (fun s =>
      r <- random ;;
      ret [newCard i s r])).

(** The loop of [shuffleDeck], from index [i] down to 1. *)
Fixpoint shuffleFrom (i : nat) (newDeck : list PlayingCard) : M (list PlayingCard) :=
  match i with
  | O => ret newDeck
  | S i' =>
      r <- random ;;
      match floor_index (r * number_of_nat (i + 1))%float (List.length newDeck) with
      | Some j =>
          match swap i j newDeck with
          | Some swapped => shuffleFrom i' swapped
          | None => throw OutOfModel
          end
      | None => throw OutOfModel
      end
  end.

Definition shuffleDeck (deck : list PlayingCard) : M (list PlayingCard) :=
  shuffleFrom (List.length deck - 1) deck.

(** One pass of the body of the [while] loop up to the test of
    [result.solvable]: the hand drawn and the solver's result for it. *)
Definition attempt (count : Z) (difficulty : Difficulty)
  : M (list PlayingCard * SolverResult) :=
  deck <- generateDeck difficulty ;;
  shuffled <- shuffleDeck deck ;;
  let hand := slice0 count shuffled in
  let numbers := map value hand in
  match solve24 Number_toString numbers with
  | Returns result => ret (hand, result)
  | Throws e => throw e
  end.

(** [generateDeck(difficulty).slice(0, count)] *)
Definition fallback (count : Z) (difficulty : Difficulty) : M (list PlayingCard) :=
  deck <- generateDeck difficulty ;;
  ret (slice0 count deck).

Fixpoint drawLoop (fuel : nat) (attempts : nat) (count : Z) (difficulty : Difficulty)
  : M (list PlayingCard) :=
  match fuel with
  | O => throw OutOfFuel
  | S fuel' =>
      if (attempts <? 100)%nat then
        hr <- attempt count difficulty ;;
        if solvable (snd hr) then ret (fst hr)
        else drawLoop fuel' (S attempts) count difficulty
      else fallback count difficulty
  end.

Definition drawCards (count : Z) (difficulty : Difficulty) : M (list PlayingCard) :=
  drawLoop 101 0 count difficulty.

(** *** The dealer, as the specification describes it *)

(** The deck [generateDeck] builds when [k] calls of [Math.random] have been
    made: for each value from 1 to the maximum, one card per suit. *)
Definition deck_from (difficulty : Difficulty) (k : nat) : list PlayingCard :=
  flat_map (fun i =>
    [ newCard i Hearts (Math_random (k + 4 * (i - 1)));
      newCard i Diamonds (Math_random (k + 4 * (i - 1) + 1));
      newCard i Clubs (Math_random (k + 4 * (i - 1) + 2));
      newCard i Spades (Math_random (k + 4 * (i - 1) + 3)) ])
    (seq 1 (maxVal difficulty)).

(** [failed_attempts n k k']: from state [k], [n] attempts in a row draw an
    unsolvable hand and leave the state [k']. *)
Inductive failed_attempts (count : Z) (difficulty : Difficulty)
  : nat -> nat -> nat -> Prop :=
| failed_none (k : nat) : failed_attempts count difficulty 0 k k
| failed_more (n k k1 k2 : nat) (hand : list PlayingCard) (result : SolverResult) :
    attempt count difficulty k = Returns ((hand, result), k1) ->
    solvable result = false ->
    failed_attempts count difficulty n k1 k2 ->
    failed_attempts count difficulty (S n) k k2.

(** The random source multiplied by the length of a deck floors to an index
    of the deck, as it does for numbers in [0, 1). *)
Definition unit_random : Prop :=
  forall k n, 1 <= n <= 52 ->
  exists j, floor_index (Math_random k * number_of_nat n)%float n = Some j.

End Dealer.

(** ** Trees over small integers

    The trees the solver can build from integers between 1 and 13, with the
    text of a leaf its decimal digits.  They are enumerated by size to check
    a property of all of them by computation. *)

Inductive shape : Type :=
| Leaf (z : Z)
| Node (operation : Operation) (l r : shape).

Fixpoint node_of (t : shape) : ExprNode :=
  match t with
  | Leaf z => MkExprNode (Z2F z) (decimal z) 0 None None None
  | Node o l r => newNode (node_of l) (node_of r) o
  end.

(** [val (node_of t)] without the texts *)
Fixpoint value_of (t : shape) : float :=
  match t with
  | Leaf z => Z2F z
  | Node o l r => func o (value_of l) (value_of r)
  end.

Fixpoint size (t : shape) : nat :=
  match t with
  | Leaf _ => 1
  | Node _ l r => size l + size r
  end.

Definition card_values : list Z := map Z.of_nat (seq 1 13).

(** Leaves between 1 and 13, operators of [ops]. *)
Fixpoint small (t : shape) : Prop :=
  match t with
  | Leaf z => In z card_values
  | Node o l r => In o ops /\ small l /\ small r
  end.

(** [eachN k] is [k t (value_of t)] for every small tree [t] of size N. *)
(** The card values with their numbers, computed once. *)
Definition card_numbers : list (Z * float) :=
  Eval vm_compute in map (fun z => (z, Z2F z)) card_values.

Definition each1 (k : shape -> float -> bool) : bool :=
  forallb (fun zx => k (Leaf (fst zx)) (snd zx)) card_numbers.

Definition each_pair (eachL eachR : (shape -> float -> bool) -> bool)
  (k : shape -> float -> bool) : bool :=
  forallb (fun o =>
    eachL (fun l vl => eachR (fun r vr => k (Node o l r) (func o vl vr)))) ops.

Definition each2 (k : shape -> float -> bool) : bool :=
  each_pair each1 each1 k.

Definition each3 (k : shape -> float -> bool) : bool :=
  each_pair each2 each1 k && each_pair each1 each2 k.

Definition each4 (k : shape -> float -> bool) : bool :=
  each_pair each3 each1 k && each_pair each2 each2 k && each_pair each1 each3 k.

(** If the value of the tree is within [EPSILON] of 24, then its displayed
    text read as infix arithmetic has a value within [EPSILON] of 24 in
    binary64 arithmetic, and the value 24 in exact arithmetic. *)
Definition text_agrees (t : shape) (v : float) : bool :=
  if (abs (v - 24) <? EPSILON)%float then
    match Infix.read (prettySolution (str (node_of t))) with
    | Some e =>
        Infix.within_eps_of_24 (Infix.value e) &&
        match Infix.exact e with
        | Some q => Qeq_bool q 24
        | None => false
        end
    | None => false
    end
  else true.

(** [each] reaches every small tree of size [n]. *)
Definition covers (each : (shape -> float -> bool) -> bool) (n : nat) : Prop :=
  forall k, each k = true ->
  forall t, size t = n -> small t -> k t (value_of t) = true.

(** ** The search space as a set of trees *)

(** [assembles frontier t]: the tree [t] combines the nodes of [frontier],
    each of them once, by operators of [ops] whose division is never
    guarded.  These are the trees the recursive case can reach from
    [frontier], whatever the order in which it pairs the nodes. *)
Inductive assembles : list ExprNode -> ExprNode -> Prop :=
| assembles_one (n : ExprNode) : assembles [n] n
| assembles_node (frontier left_part right_part : list ExprNode)
    (a b : ExprNode) (operation : Operation) :
    assembles left_part a -> assembles right_part b ->
    In operation ops -> skipped b operation = false ->
    Permutation frontier (left_part ++ right_part)%list ->
    assembles frontier (newNode a b operation).

(** A bound on the number of frontiers of size one below a frontier of [n]
    nodes: 1, 8, 192, 9216 for one to four nodes. *)
Fixpoint tests_bound (n : nat) : nat :=
  match n with
  | O => O
  | S m =>
      match m with
      | O => 1%nat
      | S _ => (n * (m * 4) * tests_bound m)%nat
      end
  end.

(** The character [c] occurs in [s]. *)
Fixpoint has_char (c : ascii) (s : string) : bool :=
  match s with
  | EmptyString => false
  | String x s' => Ascii.eqb x c || has_char c s'
  end.

(** ** Cards of a deck *)

(** What every card of a dealt hand inherits from the deck: a value from 1
    to the maximum of the difficulty, and the colour of its suit. *)
Definition card_of_deck (difficulty : Difficulty) (c : PlayingCard) : Prop :=
  exists i : nat,
    (1 <= i <= maxVal difficulty)%nat /\ value c = number_of_nat i /\
    color c = match suit c with
              | Hearts | Diamonds => red
              | Clubs | Spades => black
              end.

(** ** evaluateExpression

    The expression a player typed is stripped of every character outside the
    class [0-9+\-*/().\s] and handed to [new Function], which is no part of
    the repository: the call and the conversion of its result to a number
    are the section variables [Function_call] and [ToNumber], with [None]
    for a thrown exception. *)

(** The ASCII characters of the class: digits, the six signs, the dot, and
    the white space characters tab, line feed, vertical tab, form feed,
    carriage return and space. *)
Definition kept_ascii (c : ascii) : bool :=
  match c with
  | "0" | "1" | "2" | "3" | "4" | "5" | "6" | "7" | "8" | "9"
  | "+" | "-" | "*" | "/" | "(" | ")" | "." | " "
  | "009" | "010" | "011" | "012" | "013" => true
  | _ => false
  end%char.

(** The white space of [\s] outside ASCII, by its UTF-8 bytes:
    U+00A0 is C2 A0. *)
Definition space2 (a b : ascii) : bool :=
  ((N_of_ascii a =? 194) && (N_of_ascii b =? 160))%N.

(** U+1680 is E1 9A 80; U+2000 to U+200A, U+2028, U+2029 and U+202F are
    E2 80 followed by 80 to 8A, A8, A9, AF; U+205F is E2 81 9F; U+3000 is
    E3 80 80; U+FEFF is EF BB BF. *)
Definition space3 (a b c : ascii) : bool :=
  let x := N_of_ascii a in
  let y := N_of_ascii b in
  let z := N_of_ascii c in
  (((x =? 225) && (y =? 154) && (z =? 128)) ||
   ((x =? 226) && (y =? 128) &&
    (((128 <=? z) && (z <=? 138)) || (z =? 168) || (z =? 169) || (z =? 175))) ||
   ((x =? 226) && (y =? 129) && (z =? 159)) ||
   ((x =? 227) && (y =? 128) && (z =? 128)) ||
   ((x =? 239) && (y =? 187) && (z =? 191)))%N.

(** [expression.replace(/[^0-9+\-*/().\s]/g, '')] *)
Fixpoint sanitize (s : string) : string :=
  match s with
  | EmptyString => EmptyString
  | String a rest =>
      if kept_ascii a then String a (sanitize rest)
      else
        match rest with
        | String b rest2 =>
            if space2 a b then String a (String b (sanitize rest2))
            else
              match rest2 with
              | String c rest3 =>
                  if space3 a b c
                  then String a (String b (String c (sanitize rest3)))
                  else sanitize rest
              | EmptyString => sanitize rest
              end
        | EmptyString => EmptyString
        end
  end.

(** The texts made of characters of the class only. *)
Inductive class_text : string -> Prop :=
| class_empty : class_text EmptyString
| class_ascii (a : ascii) (s : string) :
    kept_ascii a = true -> class_text s -> class_text (String a s)
| class_space2 (a b : ascii) (s : string) :
    space2 a b = true -> class_text s -> class_text (String a (String b s))
| class_space3 (a b c : ascii) (s : string) :
    space3 a b c = true -> class_text s ->
    class_text (String a (String b (String c s))).

Section Evaluate.

(** The values a piece of JavaScript may return. *)
Variable JSValue : Type.

(** [new Function(code)()]: the value returned, [None] when compiling or
    running the code throws. *)
Variable Function_call : string -> option JSValue.

(** The conversion of a value to a number that [isFinite] and [isNaN]
    perform, [None] when it throws. *)
Variable ToNumber : JSValue -> option float.

Definition evaluateExpression (expression : string) : option JSValue :=
  let sanitized := sanitize expression in
  if truthy sanitized then
    match Function_call ("return " ++ sanitized) with
    | Some result =>
        match ToNumber result with
        | Some x =>
            if negb (isFinite x) || PrimFloat.is_nan x then None else Some result
        | None => None
        end
    | None => None
    end
  else None.

End Evaluate.

(** ** The solver against exact arithmetic

    On card values the test [Math.abs(val - 24) < EPSILON] on binary64
    numbers is compared with the rational value of the same expression.
    Expressions are those of [Infix]; their rational value is [Infix.exact].
    To check all expressions of four cards by computation, the rational
    value is also computed as a quotient of two machine integers. *)

From Stdlib Require Uint63 Sint63.

(** The numbers of an expression, from left to right. *)
Fixpoint operands (e : Infix.expr) : list Z :=
  match e with
  | Infix.Num z => [z]
  | Infix.Bin _ l r => (operands l ++ operands r)%list
  end.

Fixpoint esize (e : Infix.expr) : nat :=
  match e with
  | Infix.Num _ => 1%nat
  | Infix.Bin _ l r => (esize l + esize r)%nat
  end.

(** Some arithmetic expression over the numbers, each used once, has the
    exact value 24. *)
Definition makes_24 (numbers : list Z) : Prop :=
  exists (e : Infix.expr) (q : Q),
    Permutation (operands e) numbers /\ Infix.exact e = Some q /\ Qeq q 24.

(** The entry of [ops] for an operator. *)
Definition operation_of (o : Infix.binop) : Operation :=
  match o with
  | Infix.Add => MkOperation "+" PrimFloat.add 1
  | Infix.Sub => MkOperation "-" PrimFloat.sub 1
  | Infix.Mul => MkOperation "*" PrimFloat.mul 2
  | Infix.Div => MkOperation "/" PrimFloat.div 2
  end.

(** The guard of the operator loop, at every division of the expression:
    no divisor is within [EPSILON] of zero. *)
Fixpoint guarded (e : Infix.expr) : bool :=
  match e with
  | Infix.Num _ => true
  | Infix.Bin o l r =>
      guarded l && guarded r &&
      negb (match o with
            | Infix.Div => PrimFloat.ltb (PrimFloat.abs (Infix.value r)) EPSILON
            | _ => false
            end)
  end.

Section ExpressionTrees.

Variable Number_toString : float -> string.

(** The node the solver builds for the expression. *)
Fixpoint tree_of (e : Infix.expr) : ExprNode :=
  match e with
  | Infix.Num z => leafNode Number_toString (Z2F z)
  | Infix.Bin o l r => newNode (tree_of l) (tree_of r) (operation_of o)
  end.

End ExpressionTrees.

Module Quotient.

Import Uint63.

Definition int : Type := PrimInt63.int.

(** A rational as numerator and denominator; the denominator 0 stands for
    "no value", after a division by zero. *)
Definition quotient : Type := (int * int)%type.

Definition zero : int := 0%uint63.
Definition one : int := 1%uint63.
Definition twenty_four : int := 24%uint63.
Definition limit : int := 1048576%uint63.

(** Strictly between -2^20 and 2^20, as a signed integer. *)
Definition fits (x : int) : bool :=
  Sint63.ltb (Uint63.opp limit) x && Sint63.ltb x limit.

Definition both_fit (x : quotient) : bool := fits (fst x) && fits (snd x).

Definition combine_quotients (o : Infix.binop) (x y : quotient) : quotient :=
  let (n1, d1) := x in
  let (n2, d2) := y in
  match o with
  | Infix.Add => (Uint63.add (Uint63.mul n1 d2) (Uint63.mul n2 d1), Uint63.mul d1 d2)
  | Infix.Sub => (Uint63.sub (Uint63.mul n1 d2) (Uint63.mul n2 d1), Uint63.mul d1 d2)
  | Infix.Mul => (Uint63.mul n1 n2, Uint63.mul d1 d2)
  | Infix.Div =>
      if Uint63.eqb d2 zero then (zero, zero)
      else (Uint63.mul n1 d2, Uint63.mul d1 n2)
  end.

Fixpoint quotient_of (e : Infix.expr) : quotient :=
  match e with
  | Infix.Num z => (Uint63.of_Z z, one)
  | Infix.Bin o l r => combine_quotients o (quotient_of l) (quotient_of r)
  end.

(** A property of an expression, its binary64 value and its quotient. *)
Definition test : Type := Infix.expr -> float -> quotient -> bool.

Definition operators : list Infix.binop :=
  [Infix.Add; Infix.Sub; Infix.Mul; Infix.Div].

(** The card values with their numbers and quotients, computed once. *)
Definition card_table : list (Z * (float * quotient)) :=
  Eval vm_compute in
    map (fun z => (z, (Z2F z, (Uint63.of_Z z, one)))) card_values.

(** [allN k] is [k e (Infix.value e) (quotient_of e)] for every expression
    [e] of N card values. *)
Definition all1 (k : test) : bool :=
  forallb (fun zx => k (Infix.Num (fst zx)) (fst (snd zx)) (snd (snd zx)))
    card_table.

Definition all_pairs (allL allR : test -> bool) (k : test) : bool :=
  forallb (fun o =>
    allL (fun l vl ql => allR (fun r vr qr =>
      k (Infix.Bin o l r) (func (operation_of o) vl vr)
        (combine_quotients o ql qr)))) operators.

Definition all2 (k : test) : bool := all_pairs all1 all1 k.

Definition all3 (k : test) : bool :=
  all_pairs all2 all1 k && all_pairs all1 all2 k.

Definition all4 (k : test) : bool :=
  all_pairs all3 all1 k && all_pairs all2 all2 k && all_pairs all1 all3 k.

(** The solver's test and the exact value agree: where the quotient is 24,
    the binary64 value is within [EPSILON] of 24 and no division of the
    expression is guarded; where the quotient is another number or none, the
    binary64 value is not within [EPSILON] of 24. *)
Definition agrees : test := fun e v q =>
  let within := PrimFloat.ltb (PrimFloat.abs (PrimFloat.sub v 24%float)) EPSILON in
  if Uint63.eqb (snd q) zero then negb within
  else if Uint63.eqb (fst q) (Uint63.mul twenty_four (snd q))
       then within && guarded e
       else negb within.

Definition in_range : test := fun _ _ q => both_fit q.

(** [all] reaches every expression of [n] card values. *)
Definition reaches (all : test -> bool) (n : nat) : Prop :=
  forall k, all k = true ->
  forall e, esize e = n -> Forall (fun z => In z card_values) (operands e) ->
  k e (Infix.value e) (quotient_of e) = true.

(** The fraction N/D for a rational, and the denominator 0 for none. *)
Definition stands_for (x : option Q) (N D : Z) : Prop :=
  match x with
  | Some q => D <> 0%Z /\ Qeq (q * inject_Z D) (inject_Z N)
  | None => D = 0%Z
  end.

(** The two integers, read as signed, are a fraction for the exact value of
    the expression, with room left for one more multiplication. *)
Definition represents (e : Infix.expr) (q : quotient) : Prop :=
  let N := Sint63.to_Z (fst q) in
  let D := Sint63.to_Z (snd q) in
  (Z.abs N < 2 ^ 42)%Z /\ (Z.abs D < 2 ^ 42)%Z /\
  stands_for (Infix.exact e) N D.

End Quotient.

(** * Properties *)

Local Close Scope string_scope.
Local Open Scope nat_scope.

(** ** Loops *)

Lemma for_of_app {A R : Type} (l1 l2 : list A) (body : A -> outcome (option R)) :
  for_of (l1 ++ l2) body =
  match for_of l1 body with
  | Returns None => for_of l2 body
  | r => r
  end.
Proof.
  induction l1 as [|x l1 IH]; simpl; [reflexivity|].
  destruct (body x) as [[r|]|e]; auto.
Qed.

Lemma for_of_single {A R : Type} (x : A) (body : A -> outcome (option R)) :
  for_of [x] body = body x.
Proof.
  simpl. destruct (body x) as [[r|]|e]; reflexivity.
Qed.

Lemma for_of_ext {A R : Type} (l : list A) (f g : A -> outcome (option R)) :
  (forall x, In x l -> f x = g x) -> for_of l f = for_of l g.
Proof.
  induction l as [|x l IH]; intros H; simpl; [reflexivity|].
  rewrite (H x (or_introl eq_refl)).
  destruct (g x) as [[r|]|e]; auto.
  apply IH. intros y Hy. apply H. now right.
Qed.

Lemma for_of_flat_map {A B R : Type} (g : A -> list B) (l : list A)
  (body : B -> outcome (option R)) :
  for_of (flat_map g l) body = for_of l (fun x => for_of (g x) body).
Proof.
  induction l as [|x l IH]; simpl; [reflexivity|].
  rewrite for_of_app, IH.
  destruct (for_of (g x) body) as [[r|]|e]; reflexivity.
Qed.

(** A loop returns as soon as every iteration does. *)
Lemma for_of_returns {A R : Type} (l : list A) (body : A -> outcome (option R)) :
  (forall x, In x l -> exists r, body x = Returns r) ->
  exists r, for_of l body = Returns r.
Proof.
  induction l as [|x l IH]; intros H; simpl; [eauto|].
  destruct (H x (or_introl eq_refl)) as [[r|] ->]; [eauto|].
  apply IH. intros y Hy. apply H. now right.
Qed.

(** What a loop returns is the first thing an iteration returns. *)
Lemma for_of_found {A R : Type} (l : list A) (body : A -> outcome (option R)) (r : R) :
  for_of l body = Returns (Some r) ->
  exists x, In x l /\ body x = Returns (Some r).
Proof.
  induction l as [|x l IH]; simpl; [discriminate|].
  destruct (body x) as [[r'|]|e] eqn:E; intros H; try discriminate.
  - exists x. split; [now left|]. congruence.
  - destruct (IH H) as [y [Hy Hb]]. exists y. split; [now right|assumption].
Qed.

(** ** Removing two elements of an array *)

Lemma filter_idx_ext {A : Type} (p q : nat -> bool) (l : list A) :
  forall from, (forall k, from <= k -> p k = q k) ->
  filter_idx p from l = filter_idx q from l.
Proof.
  induction l as [|x l IH]; intros from H; simpl; [reflexivity|].
  rewrite (H from (le_n _)), (IH (S from)); [reflexivity|].
  intros k Hk. apply H. lia.
Qed.

Lemma filter_idx_all {A : Type} (p : nat -> bool) (l : list A) :
  forall from, (forall k, from <= k -> p k = true) -> filter_idx p from l = l.
Proof.
  induction l as [|x l IH]; intros from H; simpl; [reflexivity|].
  rewrite (H from (le_n _)), (IH (S from)); [reflexivity|].
  intros k Hk. apply H. lia.
Qed.

Lemma filter_idx_remove_one {A : Type} (l : list A) :
  forall from j b,
    nth_error l j = Some b ->
    Permutation l (b :: filter_idx (fun idx => negb (idx =? from + j)) from l).
Proof.
  induction l as [|x l IH]; intros from j b H.
  - destruct j; discriminate.
  - destruct j as [|j]; simpl in *.
    + injection H as ->. rewrite Nat.add_0_r, Nat.eqb_refl. simpl.
      rewrite filter_idx_all; [reflexivity|].
      intros k Hk. apply negb_true_iff, Nat.eqb_neq. lia.
    + replace (from =? from + S j) with false by (symmetry; apply Nat.eqb_neq; lia).
      simpl. rewrite perm_swap. apply perm_skip.
      rewrite (@filter_idx_ext _ _ (fun idx => negb (idx =? S from + j)) l (S from)).
      * now apply IH.
      * intros k _. f_equal. f_equal. lia.
Qed.

Lemma filter_idx_remove_two {A : Type} (l : list A) :
  forall from i j a b,
    i <> j ->
    nth_error l i = Some a -> nth_error l j = Some b ->
    Permutation l
      (a :: b :: filter_idx (fun idx => negb (idx =? from + i) && negb (idx =? from + j)) from l).
Proof.
  induction l as [|x l IH]; intros from i j a b Hij Ha Hb.
  - destruct i; discriminate.
  - destruct i as [|i], j as [|j]; simpl in *; try congruence.
    + injection Ha as ->.
      rewrite Nat.add_0_r, Nat.eqb_refl. simpl. apply perm_skip.
      rewrite (@filter_idx_ext _ _ (fun idx => negb (idx =? S from + j)) l (S from)).
      * now apply filter_idx_remove_one.
      * intros k Hk.
        replace (k =? from) with false by (symmetry; apply Nat.eqb_neq; lia).
        simpl. f_equal. f_equal. lia.
    + injection Hb as ->.
      rewrite Nat.add_0_r, Nat.eqb_refl, andb_false_r.
      rewrite perm_swap. apply perm_skip.
      rewrite (@filter_idx_ext _ _ (fun idx => negb (idx =? S from + i)) l (S from)).
      * now apply filter_idx_remove_one.
      * intros k Hk.
        replace (k =? from) with false by (symmetry; apply Nat.eqb_neq; lia).
        rewrite andb_true_r. f_equal. f_equal. lia.
    + replace (from =? from + S i) with false by (symmetry; apply Nat.eqb_neq; lia).
      replace (from =? from + S j) with false by (symmetry; apply Nat.eqb_neq; lia).
      simpl.
      transitivity (x :: a :: b ::
        filter_idx (fun idx => negb (idx =? S from + i) && negb (idx =? S from + j)) (S from) l).
      * apply perm_skip. apply IH; congruence.
      * rewrite (@filter_idx_ext _ _
          (fun idx => negb (idx =? from + S i) && negb (idx =? from + S j)) l (S from)).
        -- rewrite (perm_swap a x). apply perm_skip. apply perm_swap.
        -- intros k _. now rewrite !Nat.add_succ_comm.
Qed.

Lemma remaining_of_perm (nodes : list ExprNode) (i j : nat) (a b : ExprNode) :
  i <> j -> nth_error nodes i = Some a -> nth_error nodes j = Some b ->
  Permutation nodes (a :: b :: remaining_of nodes i j).
Proof.
  intros Hij Ha Hb. unfold remaining_of.
  exact (filter_idx_remove_two nodes 0 i j a b Hij Ha Hb).
Qed.

(** ** The recursive case is a loop over [candidates] *)

Lemma candidates_spec (nodes c : list ExprNode) :
  In c (candidates nodes) <->
  exists i j a b operation,
    i <> j /\ nth_error nodes i = Some a /\ nth_error nodes j = Some b /\
    In operation ops /\ skipped b operation = false /\
    c = (remaining_of nodes i j ++ [newNode a b operation])%list.
Proof.
  unfold candidates. rewrite in_flat_map. split.
  - intros [i [_ H]]. rewrite in_flat_map in H. destruct H as [j [_ H]].
    destruct (Nat.eqb_spec i j) as [|Hij]; [contradiction|].
    destruct (nth_error nodes i) as [a|] eqn:Ha; [|contradiction].
    destruct (nth_error nodes j) as [b|] eqn:Hb; [|contradiction].
    rewrite in_flat_map in H. destruct H as [o [Ho H]].
    destruct (skipped b o) eqn:Hs; [contradiction|].
    destruct H as [<-|[]]. exists i, j, a, b, o. auto 10.
  - intros (i & j & a & b & o & Hij & Ha & Hb & Ho & Hs & ->).
    assert (Hi : i < List.length nodes) by (apply nth_error_Some; congruence).
    assert (Hj : j < List.length nodes) by (apply nth_error_Some; congruence).
    exists i. split; [apply in_seq; lia|].
    rewrite in_flat_map. exists j. split; [apply in_seq; lia|].
    destruct (Nat.eqb_spec i j); [contradiction|].
    rewrite Ha, Hb, in_flat_map. exists o. split; [assumption|].
    rewrite Hs. now left.
Qed.

Lemma findSolution_unfold (fuel : nat) (nodes : list ExprNode) :
  findSolution (S fuel) nodes =
  if List.length nodes =? 1 then
    match nth_error nodes 0 with
    | None => Throws TypeError
    | Some n0 => if near24 n0 then Returns (Some n0) else Returns None
    end
  else
    for_of (seq 0 (List.length nodes)) (fun i =>
      for_of (seq 0 (List.length nodes)) (fun j =>
        if i =? j then Returns None
        else
          match nth_error nodes i, nth_error nodes j with
          | Some a, Some b =>
              for_of ops (fun operation =>
                if skipped b operation then Returns None
                else findSolution fuel
                       (remaining_of nodes i j ++ [newNode a b operation]))
          | _, _ => Throws TypeError
          end)).
Proof. reflexivity. Qed.

Lemma findSolution_step (fuel : nat) (nodes : list ExprNode) :
  List.length nodes <> 1 ->
  findSolution (S fuel) nodes = for_of (candidates nodes) (findSolution fuel).
Proof.
  intros Hlen. rewrite findSolution_unfold.
  destruct (Nat.eqb_spec (List.length nodes) 1) as [|_]; [contradiction|].
  unfold candidates. rewrite for_of_flat_map.
  apply for_of_ext. intros i Hi.
  rewrite for_of_flat_map. apply for_of_ext. intros j Hj.
  destruct (i =? j); [reflexivity|].
  apply in_seq in Hi, Hj.
  destruct (nth_error nodes i) as [a|] eqn:Ha;
    [|apply nth_error_None in Ha; lia].
  destruct (nth_error nodes j) as [b|] eqn:Hb;
    [|apply nth_error_None in Hb; lia].
  rewrite for_of_flat_map. apply for_of_ext. intros o _.
  destruct (skipped b o); [reflexivity|].
  now rewrite for_of_single.
Qed.

Lemma findSolution_base (fuel : nat) (n : ExprNode) :
  findSolution (S fuel) [n] = Returns (if near24 n then Some n else None).
Proof.
  rewrite findSolution_unfold. simpl. destruct (near24 n); reflexivity.
Qed.

Lemma candidates_length (nodes c : list ExprNode) :
  In c (candidates nodes) -> S (List.length c) = List.length nodes.
Proof.
  intros H. apply candidates_spec in H.
  destruct H as (i & j & a & b & o & Hij & Ha & Hb & _ & _ & ->).
  pose proof (Permutation_length (remaining_of_perm nodes i j a b Hij Ha Hb)) as HL.
  rewrite length_app. simpl in *. lia.
Qed.

(** ** Termination *)

Lemma findSolution_total (fuel : nat) :
  forall nodes, 0 < fuel -> List.length nodes <= fuel ->
  exists r, findSolution fuel nodes = Returns r.
Proof.
  induction fuel as [|fuel IH]; intros nodes H0 Hlen; [lia|].
  destruct (Nat.eq_dec (List.length nodes) 1) as [H1|H1].
  - destruct nodes as [|n [|? ?]]; try discriminate.
    rewrite findSolution_base. eauto.
  - rewrite findSolution_step by assumption.
    apply for_of_returns. intros c Hc.
    apply candidates_length in Hc. apply IH; lia.
Qed.

(** More fuel than enough changes nothing. *)
Lemma findSolution_fuel (fuel : nat) :
  forall nodes fuel', List.length nodes < fuel -> fuel <= fuel' ->
  findSolution fuel' nodes = findSolution fuel nodes.
Proof.
  induction fuel as [|fuel IH]; intros nodes fuel' Hlen Hle; [lia|].
  destruct fuel' as [|fuel']; [lia|].
  destruct (Nat.eq_dec (List.length nodes) 1) as [H1|H1].
  - destruct nodes as [|n [|? ?]]; try discriminate.
    now rewrite !findSolution_base.
  - rewrite !findSolution_step by assumption.
    apply for_of_ext. intros c Hc.
    apply IH; [|lia]. apply candidates_length in Hc. lia.
Qed.

(** ** The order of the search *)

Lemma find_app {A : Type} (p : A -> bool) (l1 l2 : list A) :
  find p (l1 ++ l2) =
  match find p l1 with
  | Some x => Some x
  | None => find p l2
  end.
Proof.
  induction l1 as [|x l1 IH]; simpl; [reflexivity|].
  destruct (p x); auto.
Qed.

Lemma upto_first_none {A : Type} (p : A -> bool) (l : list A) :
  find p l = None -> upto_first p l = l.
Proof.
  induction l as [|x l IH]; simpl; [reflexivity|].
  destruct (p x); [discriminate|]. intros H. now rewrite IH.
Qed.

Lemma upto_first_app {A : Type} (p : A -> bool) (l1 l2 : list A) :
  upto_first p (l1 ++ l2) =
  match find p l1 with
  | Some _ => upto_first p l1
  | None => l1 ++ upto_first p l2
  end.
Proof.
  induction l1 as [|x l1 IH]; simpl; [reflexivity|].
  destruct (p x); [reflexivity|].
  rewrite IH. destruct (find p l1); reflexivity.
Qed.

(** The tested frontiers are a prefix of the list searched, and the prefix
    ends where the search succeeds. *)
Lemma upto_first_prefix {A : Type} (p : A -> bool) (l : list A) :
  exists rest, l = upto_first p l ++ rest /\
               (forall x, find p l = Some x -> upto_first p l = removelast (upto_first p l) ++ [x]) /\
               (forall y, In y (removelast (upto_first p l)) -> p y = false).
Proof.
  induction l as [|x l [rest [IH1 [IH2 IH3]]]]; simpl.
  - exists []. repeat split; [discriminate|contradiction].
  - destruct (p x) eqn:E.
    + exists l. simpl. repeat split.
      * intros y [= <-]. reflexivity.
      * contradiction.
    + exists rest. split; [simpl; congruence|].
      destruct (upto_first p l) as [|z u] eqn:U.
      * split; [|contradiction].
        intros y Hy. destruct l as [|z l]; [discriminate|].
        simpl in U. destruct (p z); discriminate.
      * split.
        -- intros y Hy. specialize (IH2 y Hy). simpl in *. now rewrite IH2 at 1.
        -- intros y [<-|Hy]; [assumption|]. now apply IH3.
Qed.

Lemma for_of_find {A R : Type} (p : R -> bool) (T : A -> list R)
  (l : list A) (F : A -> outcome (option R)) :
  (forall c, In c l -> F c = Returns (find p (T c))) ->
  for_of l F = Returns (find p (flat_map T l)).
Proof.
  induction l as [|c l IH]; intros H; simpl; [reflexivity|].
  rewrite (H c (or_introl eq_refl)), find_app.
  destruct (find p (T c)); [reflexivity|].
  apply IH. intros d Hd. apply H. now right.
Qed.

Lemma findSolution_first_terminal (fuel : nat) :
  forall nodes, List.length nodes < fuel ->
  findSolution fuel nodes = Returns (find near24 (terminals fuel nodes)).
Proof.
  induction fuel as [|fuel IH]; intros nodes Hlen; [lia|].
  destruct (Nat.eq_dec (List.length nodes) 1) as [H1|H1].
  - destruct nodes as [|n [|? ?]]; try discriminate.
    rewrite findSolution_base. simpl. destruct (near24 n); reflexivity.
  - rewrite findSolution_step by assumption.
    simpl. destruct (Nat.eqb_spec (List.length nodes) 1) as [|_]; [contradiction|].
    apply for_of_find. intros c Hc.
    apply IH. apply candidates_length in Hc. lia.
Qed.

(** *** The log of tested frontiers *)

Lemma for_of_log_app {A R L : Type} (l1 l2 : list A)
  (body : A -> list L * outcome (option R)) :
  for_of_log (l1 ++ l2) body =
  match for_of_log l1 body with
  | (w, Returns None) => let (w', r) := for_of_log l2 body in (w ++ w', r)
  | r => r
  end.
Proof.
  induction l1 as [|x l1 IH]; simpl.
  - destruct (for_of_log l2 body); reflexivity.
  - destruct (body x) as [w [[r|]|e]]; try reflexivity.
    rewrite IH.
    destruct (for_of_log l1 body) as [w1 [[r|]|e]]; try reflexivity.
    destruct (for_of_log l2 body) as [w2 r2]. now rewrite app_assoc.
Qed.

Lemma for_of_log_single {A R L : Type} (x : A)
  (body : A -> list L * outcome (option R)) :
  for_of_log [x] body = body x.
Proof.
  simpl. destruct (body x) as [w [[r|]|e]]; try reflexivity.
  now rewrite app_nil_r.
Qed.

Lemma for_of_log_ext {A R L : Type} (l : list A)
  (f g : A -> list L * outcome (option R)) :
  (forall x, In x l -> f x = g x) -> for_of_log l f = for_of_log l g.
Proof.
  induction l as [|x l IH]; intros H; simpl; [reflexivity|].
  rewrite (H x (or_introl eq_refl)).
  destruct (g x) as [w [[r|]|e]]; auto.
  rewrite IH; [reflexivity|]. intros y Hy. apply H. now right.
Qed.

Lemma for_of_log_flat_map {A B R L : Type} (g : A -> list B) (l : list A)
  (body : B -> list L * outcome (option R)) :
  for_of_log (flat_map g l) body = for_of_log l (fun x => for_of_log (g x) body).
Proof.
  induction l as [|x l IH]; simpl; [reflexivity|].
  rewrite for_of_log_app, IH.
  destruct (for_of_log (g x) body) as [w [[r|]|e]]; reflexivity.
Qed.

Lemma findSolution_log_step (fuel : nat) (nodes : list ExprNode) :
  List.length nodes <> 1 ->
  findSolution_log (S fuel) nodes = for_of_log (candidates nodes) (findSolution_log fuel).
Proof.
  intros Hlen.
  change (findSolution_log (S fuel) nodes) with
    (if List.length nodes =? 1 then
       match nth_error nodes 0 with
       | None => ([], Throws TypeError)
       | Some n0 =>
           if near24 n0 then ([n0], Returns (Some n0)) else ([n0], Returns None)
       end
     else
       for_of_log (seq 0 (List.length nodes)) (fun i =>
         for_of_log (seq 0 (List.length nodes)) (fun j =>
           if i =? j then ([], Returns None)
           else
             match nth_error nodes i, nth_error nodes j with
             | Some a, Some b =>
                 for_of_log ops (fun operation =>
                   if skipped b operation then ([], Returns None)
                   else findSolution_log fuel
                          (remaining_of nodes i j ++ [newNode a b operation]))
             | _, _ => ([], Throws TypeError)
             end))).
  destruct (Nat.eqb_spec (List.length nodes) 1) as [|_]; [contradiction|].
  unfold candidates. rewrite for_of_log_flat_map.
  apply for_of_log_ext. intros i Hi.
  rewrite for_of_log_flat_map. apply for_of_log_ext. intros j Hj.
  destruct (i =? j); [reflexivity|].
  apply in_seq in Hi, Hj.
  destruct (nth_error nodes i) as [a|] eqn:Ha;
    [|apply nth_error_None in Ha; lia].
  destruct (nth_error nodes j) as [b|] eqn:Hb;
    [|apply nth_error_None in Hb; lia].
  rewrite for_of_log_flat_map. apply for_of_log_ext. intros o _.
  destruct (skipped b o); [reflexivity|].
  now rewrite for_of_log_single.
Qed.

Lemma for_of_log_find {A R : Type} (p : R -> bool) (T : A -> list R)
  (l : list A) (G : A -> list R * outcome (option R)) :
  (forall c, In c l -> G c = (upto_first p (T c), Returns (find p (T c)))) ->
  for_of_log l G = (upto_first p (flat_map T l), Returns (find p (flat_map T l))).
Proof.
  induction l as [|c l IH]; intros H; simpl; [reflexivity|].
  rewrite (H c (or_introl eq_refl)), find_app, upto_first_app.
  destruct (find p (T c)) eqn:E; [reflexivity|].
  rewrite IH; [|intros d Hd; apply H; now right].
  now rewrite (upto_first_none _ _ E).
Qed.

Lemma findSolution_log_terminals (fuel : nat) :
  forall nodes, List.length nodes < fuel ->
  findSolution_log fuel nodes =
  (upto_first near24 (terminals fuel nodes), findSolution fuel nodes).
Proof.
  intros nodes Hlen. rewrite findSolution_first_terminal by assumption.
  revert nodes Hlen.
  induction fuel as [|fuel IH]; intros nodes Hlen; [lia|].
  destruct (Nat.eq_dec (List.length nodes) 1) as [H1|H1].
  - destruct nodes as [|n [|? ?]]; try discriminate.
    simpl. destruct (near24 n); reflexivity.
  - rewrite findSolution_log_step by assumption.
    simpl. destruct (Nat.eqb_spec (List.length nodes) 1) as [|_]; [contradiction|].
    apply for_of_log_find. intros c Hc.
    apply IH. apply candidates_length in Hc. lia.
Qed.

(** *** The order of the candidates is the lexicographic order of (i, j, operator) *)

Lemma flat_map_list_prod {A B C : Type} (f : A * B -> list C) (l1 : list A) (l2 : list B) :
  flat_map f (list_prod l1 l2) =
  flat_map (fun x => flat_map (fun y => f (x, y)) l2) l1.
Proof.
  induction l1 as [|x l1 IH]; simpl; [reflexivity|].
  rewrite flat_map_app, IH. f_equal.
  clear. induction l2 as [|y l2 IH]; simpl; [reflexivity|]. now rewrite IH.
Qed.

Lemma candidates_lexicographic (nodes : list ExprNode) :
  candidates nodes =
  flat_map (combine_at nodes)
    (list_prod (seq 0 (List.length nodes)) (list_prod (seq 0 (List.length nodes)) ops)).
Proof.
  unfold candidates. rewrite flat_map_list_prod.
  apply flat_map_ext. intros i.
  rewrite flat_map_list_prod.
  apply flat_map_ext. intros j.
  unfold combine_at.
  destruct (i =? j); [reflexivity|].
  destruct (nth_error nodes i); [|reflexivity].
  destruct (nth_error nodes j); reflexivity.
Qed.

(** ** The size of the search *)

Lemma flat_map_length_le {A B : Type} (f : A -> list B) (k : nat) (l : list A) :
  (forall x, In x l -> List.length (f x) <= k) ->
  List.length (flat_map f l) <= List.length l * k.
Proof.
  induction l as [|x l IH]; intros H; simpl; [lia|].
  rewrite length_app.
  pose proof (H x (or_introl eq_refl)).
  assert (List.length (flat_map f l) <= List.length l * k)
    by (apply IH; intros y Hy; apply H; now right).
  lia.
Qed.

Lemma flat_map_length_skip {A B : Type} (f : A -> list B) (k : nat) (l : list A) (x : A) :
  In x l -> f x = [] ->
  (forall y, In y l -> List.length (f y) <= k) ->
  List.length (flat_map f l) <= (List.length l - 1) * k.
Proof.
  intros Hx Hfx H.
  destruct (in_split _ _ Hx) as [l1 [l2 ->]].
  rewrite flat_map_app. simpl. rewrite Hfx. simpl.
  rewrite !length_app. simpl.
  assert (List.length (flat_map f l1) <= List.length l1 * k).
  { apply flat_map_length_le. intros y Hy. apply H, in_or_app. now left. }
  assert (List.length (flat_map f l2) <= List.length l2 * k).
  { apply flat_map_length_le. intros y Hy. apply H, in_or_app. right. now right. }
  nia.
Qed.

Lemma candidates_count (nodes : list ExprNode) :
  List.length (candidates nodes) <= List.length nodes * ((List.length nodes - 1) * 4).
Proof.
  unfold candidates.
  set (n := List.length nodes).
  match goal with
  | |- List.length (flat_map ?f _) <= _ =>
      pose proof (@flat_map_length_le _ _ f ((n - 1) * 4) (seq 0 n)) as Hle
  end.
  rewrite length_seq in Hle. apply Hle. clear Hle. intros i Hi.
  match goal with
  | |- List.length (flat_map ?f _) <= _ =>
      pose proof (@flat_map_length_skip _ _ f 4 (seq 0 n) i) as Hle
  end.
  rewrite length_seq in Hle. apply Hle; clear Hle.
  - assumption.
  - now rewrite Nat.eqb_refl.
  - intros j _. destruct (i =? j); [simpl; lia|].
    destruct (nth_error nodes i); [|simpl; lia].
    destruct (nth_error nodes j) as [b|]; [|simpl; lia].
    simpl. rewrite !length_app.
    repeat match goal with
           | |- context [if ?c then _ else _] => destruct c
           end; simpl; lia.
Qed.

(** ** Strings *)

Lemma string_app_assoc (s1 s2 s3 : string) :
  ((s1 ++ s2) ++ s3 = s1 ++ (s2 ++ s3))%string.
Proof.
  induction s1 as [|x s1 IH]; simpl; [reflexivity|]. now rewrite IH.
Qed.

Lemma replaceAll_app (c : ascii) (by_ s1 s2 : string) :
  replaceAll c by_ (s1 ++ s2) = (replaceAll c by_ s1 ++ replaceAll c by_ s2)%string.
Proof.
  induction s1 as [|x s1 IH]; simpl; [reflexivity|].
  rewrite IH. destruct (Ascii.eqb x c); simpl; [|reflexivity].
  symmetry. apply string_app_assoc.
Qed.

Lemma string_app_nil_r (s : string) : (s ++ "" = s)%string.
Proof.
  induction s as [|x s IH]; simpl; [reflexivity|]. now rewrite IH.
Qed.

Lemma truthy_app_r (s : string) (c : ascii) (t : string) :
  truthy (s ++ String c t) = true.
Proof. destruct s; reflexivity. Qed.

Lemma occurs_in_refl (s : string) : occurs_in s s.
Proof. exists ""%string, ""%string. simpl. now rewrite string_app_nil_r. Qed.

Lemma occurs_in_trans (s t u : string) :
  occurs_in s t -> occurs_in t u -> occurs_in s u.
Proof.
  intros [p1 [q1 ->]] [p2 [q2 ->]].
  exists (p2 ++ p1)%string, (q1 ++ q2)%string.
  now rewrite !string_app_assoc.
Qed.

Lemma occurs_in_app_l (s t u : string) : occurs_in s t -> occurs_in s (t ++ u).
Proof.
  intros [p [q ->]]. exists p, (q ++ u)%string. now rewrite !string_app_assoc.
Qed.

Lemma occurs_in_app_r (s t u : string) : occurs_in s t -> occurs_in s (u ++ t).
Proof.
  intros [p [q ->]]. exists (u ++ p)%string, q. now rewrite !string_app_assoc.
Qed.

Section TreeFacts.

Variable Number_toString : float -> string.

Local Abbreviation leafNode := (leafNode Number_toString).
Local Abbreviation built := (built Number_toString).
Local Abbreviation findFirstOperation := (findFirstOperation Number_toString).
Local Abbreviation hintText := (hintText Number_toString).
Local Abbreviation arith := (arith Number_toString).
Local Abbreviation solve24 := (solve24 Number_toString).
Local Abbreviation initialNodes := (initialNodes Number_toString).

Lemma prettySolution_app (s1 s2 : string) :
  prettySolution (s1 ++ s2) = (prettySolution s1 ++ prettySolution s2)%string.
Proof. unfold prettySolution. now rewrite !replaceAll_app. Qed.

Lemma prettySolution_parens (s : string) :
  prettySolution (parens s) = parens (prettySolution s).
Proof. unfold parens. now rewrite !prettySolution_app. Qed.

Lemma ops_cases (o : Operation) :
  In o ops ->
  o = MkOperation "+" PrimFloat.add 1 \/ o = MkOperation "-" PrimFloat.sub 1 \/
  o = MkOperation "*" PrimFloat.mul 2 \/ o = MkOperation "/" PrimFloat.div 2.
Proof. simpl. intuition. Qed.

Lemma built_cases (n : ExprNode) :
  built n ->
  (exists v, n = leafNode v) \/
  (exists a b o, n = newNode a b o /\ built a /\ built b /\ In o ops /\
                 skipped b o = false).
Proof.
  intros [v|a b o Ha Hb Ho Hs]; [left; eauto|right; eauto 10].
Qed.

(** A built node is a composite exactly when its level is not 0. *)
Lemma built_level (n : ExprNode) :
  built n -> isComposite n = (0 <? opLevel n).
Proof.
  intros [v|a b o _ _ Ho _]; [reflexivity|].
  destruct (ops_cases o Ho) as [-> | [-> | [-> | ->]]]; reflexivity.
Qed.

Lemma leaves_newNode (a b : ExprNode) (o : Operation) :
  leaves (newNode a b o) = leaves a ++ leaves b.
Proof. reflexivity. Qed.

Lemma subtrees_newNode (a b : ExprNode) (o : Operation) :
  subtrees (newNode a b o) = newNode a b o :: subtrees a ++ subtrees b.
Proof. reflexivity. Qed.

Lemma subtrees_built (n : ExprNode) :
  built n -> Forall built (subtrees n).
Proof.
  induction 1 as [v|a b o Ha IHa Hb IHb Ho Hs].
  - repeat constructor.
  - rewrite subtrees_newNode. constructor.
    + now constructor.
    + apply Forall_app. now split.
Qed.

Lemma subtrees_leaves (n : ExprNode) :
  built n ->
  forall m, In m (subtrees n) -> incl (leaves m) (leaves n).
Proof.
  induction 1 as [v|a b o Ha IHa Hb IHb Ho Hs]; intros m Hm.
  - destruct Hm as [<-|[]]. apply incl_refl.
  - rewrite subtrees_newNode in Hm. rewrite leaves_newNode.
    destruct Hm as [<-|Hm]; [rewrite leaves_newNode; apply incl_refl|].
    apply in_app_or in Hm. destruct Hm as [Hm|Hm].
    + apply incl_appl. now apply IHa.
    + apply incl_appr. now apply IHb.
Qed.

(** *** What [findSolution] returns *)

Lemma findSolution_found (fuel : nat) :
  forall nodes root,
    findSolution fuel nodes = Returns (Some root) ->
    Forall built nodes ->
    near24 root = true /\ built root /\
    Permutation (flat_map leaves nodes) (leaves root).
Proof.
  induction fuel as [|fuel IH]; intros nodes root H Hb; [discriminate|].
  destruct (Nat.eq_dec (List.length nodes) 1) as [H1|H1].
  - destruct nodes as [|n [|? ?]]; try discriminate.
    rewrite findSolution_base in H.
    destruct (near24 n) eqn:E; [|discriminate].
    injection H as <-. inversion Hb; subst.
    simpl. rewrite app_nil_r. auto.
  - rewrite findSolution_step in H by assumption.
    apply for_of_found in H. destruct H as [c [Hc H]].
    apply candidates_spec in Hc.
    destruct Hc as (i & j & a & b & o & Hij & Ha & Hb' & Ho & Hs & ->).
    pose proof (remaining_of_perm nodes i j a b Hij Ha Hb') as HP.
    assert (Hall : Forall built (a :: b :: remaining_of nodes i j))
      by (eapply Permutation_Forall; eassumption).
    inversion Hall as [|? ? Hba Hall']; subst.
    inversion Hall' as [|? ? Hbb Hrem]; subst.
    destruct (IH _ _ H) as (Hn & Hr & HPr).
    { apply Forall_app. split; [assumption|].
      constructor; [|constructor]. now constructor. }
    split; [assumption|]. split; [assumption|].
    rewrite <- HPr.
    rewrite (Permutation_flat_map leaves HP).
    rewrite flat_map_app. cbn [flat_map]. rewrite app_nil_r, leaves_newNode.
    rewrite (app_assoc (leaves a)). apply Permutation_app_comm.
Qed.

Lemma initialNodes_built (numbers : list float) :
  Forall built (initialNodes numbers).
Proof.
  unfold initialNodes. induction numbers; simpl; constructor; auto.
  constructor.
Qed.

Lemma initialNodes_leaves (numbers : list float) :
  flat_map leaves (initialNodes numbers) = numbers.
Proof.
  unfold initialNodes. induction numbers as [|x l IH]; simpl; [reflexivity|].
  now rewrite IH.
Qed.

(** The tree behind a solvable result. *)
Lemma solve24_solvable (numbers : list float) (r : SolverResult) :
  solve24 numbers = Returns r -> solvable r = true ->
  exists root,
    findSolution (S (List.length numbers)) (initialNodes numbers) = Returns (Some root) /\
    near24 root = true /\ built root /\ Permutation numbers (leaves root) /\
    solution r = Some (prettySolution (str root)) /\
    firstStepHint r = Some (findFirstOperation root).
Proof.
  unfold solve24. intros H Hs.
  destruct (findSolution _ _) as [[root|]|e] eqn:E; try discriminate.
  - injection H as <-. exists root.
    edestruct findSolution_found as (Hn & Hb & HP);
      [exact E | apply initialNodes_built |].
    rewrite initialNodes_leaves in HP. auto 10.
  - injection H as <-. discriminate.
Qed.

Lemma solve24_total (numbers : list float) :
  exists r, solve24 numbers = Returns r.
Proof.
  unfold solve24.
  destruct (findSolution_total (S (List.length numbers)) (initialNodes numbers))
    as [[root|] ->]; eauto; [lia|].
  unfold initialNodes. rewrite length_map. lia.
Qed.

(** *** The text of a built tree *)

Lemma newNode_text (a b : ExprNode) (o : Operation) :
  built a -> built b ->
  str (newNode a b o) =
  (leftText a o ++ " " ++ op o ++ " " ++ rightText b o)%string.
Proof.
  intros Ha Hb. unfold leftText, rightText.
  rewrite (built_level a Ha), (built_level b Hb). reflexivity.
Qed.

Lemma prettySolution_op (o : Operation) :
  In o ops -> prettySolution (op o) = glyph (op o).
Proof.
  intros Ho. destruct (ops_cases o Ho) as [-> | [-> | [-> | ->]]]; reflexivity.
Qed.

Lemma glyph_sign (o : Operation) :
  In o ops -> In (glyph (op o)) ["+"; "-"; times_sign; division_sign]%string.
Proof.
  intros Ho. destruct (ops_cases o Ho) as [-> | [-> | [-> | ->]]]; simpl; auto.
Qed.

Lemma prettySolution_newNode (a b : ExprNode) (o : Operation) :
  built a -> built b -> In o ops ->
  prettySolution (str (newNode a b o)) =
  (prettySolution (leftText a o) ++ " " ++ glyph (op o) ++ " " ++
   prettySolution (rightText b o))%string.
Proof.
  intros Ha Hb Ho. rewrite (newNode_text a b o Ha Hb).
  rewrite !prettySolution_app, (prettySolution_op o Ho). reflexivity.
Qed.

(** The text of a tree is an arithmetic expression over its leaves, when
    the texts of its leaves hold no [*] and no [/] to replace. *)
Lemma built_arith (n : ExprNode) :
  built n ->
  Forall (fun x => prettySolution (Number_toString x) = Number_toString x) (leaves n) ->
  arith (leaves n) (prettySolution (str n)).
Proof.
  induction 1 as [v|a b o Ha IHa Hb IHb Ho Hs]; intros Hclean.
  - simpl in *. inversion Hclean as [|? ? Hv _]; subst. rewrite Hv. constructor.
  - rewrite leaves_newNode in *. apply Forall_app in Hclean.
    destruct Hclean as [Hca Hcb].
    rewrite (prettySolution_newNode a b o Ha Hb Ho).
    apply arith_binary; [now apply glyph_sign| |].
    + unfold leftText. destruct (_ && _);
        [rewrite prettySolution_parens; apply arith_parens|]; auto.
    + unfold rightText. destruct (_ && _);
        [rewrite prettySolution_parens; apply arith_parens|]; auto.
Qed.

(** The text of a subtree occurs in the text of the tree. *)
Lemma subtrees_occur (n : ExprNode) :
  built n ->
  forall m, In m (subtrees n) ->
  occurs_in (prettySolution (str m)) (prettySolution (str n)).
Proof.
  induction 1 as [v|a b o Ha IHa Hb IHb Ho Hs]; intros m Hm.
  - destruct Hm as [<-|[]]. apply occurs_in_refl.
  - rewrite subtrees_newNode in Hm.
    destruct Hm as [<-|Hm]; [apply occurs_in_refl|].
    rewrite (prettySolution_newNode a b o Ha Hb Ho).
    apply in_app_or in Hm. destruct Hm as [Hm|Hm].
    + apply occurs_in_app_l. eapply occurs_in_trans; [apply (IHa _ Hm)|].
      unfold leftText. destruct (_ && _); [|apply occurs_in_refl].
      rewrite prettySolution_parens. unfold parens.
      apply occurs_in_app_r, occurs_in_app_l, occurs_in_refl.
    + do 4 apply occurs_in_app_r. eapply occurs_in_trans; [apply (IHb _ Hm)|].
      unfold rightText. destruct (_ && _); [|apply occurs_in_refl].
      rewrite prettySolution_parens. unfold parens.
      apply occurs_in_app_r, occurs_in_app_l, occurs_in_refl.
Qed.

(** *** The hint *)

Lemma show_opt_glyph (o : string) : show_opt (opSymbol (Some o)) = glyph o.
Proof.
  unfold opSymbol, glyph, show_opt.
  destruct (o =? "*")%string; [reflexivity|].
  destruct (o =? "/")%string; reflexivity.
Qed.

Lemma findFirstOperation_newNode (a b : ExprNode) (o : Operation) :
  findFirstOperation (newNode a b o) =
  if isLeafPair (newNode a b o) then hintText (newNode a b o)
  else if truthy (findFirstOperation a) then findFirstOperation a
       else findFirstOperation b.
Proof.
  unfold isLeafPair, hintText, isComposite.
  cbn -[show_opt opSymbol append].
  rewrite show_opt_glyph.
  destruct (left a), (left b); reflexivity.
Qed.

Lemma isLeafPair_newNode (a b : ExprNode) (o : Operation) :
  isLeafPair (newNode a b o) = negb (isComposite a) && negb (isComposite b).
Proof. reflexivity. Qed.

Lemma hintText_truthy (a b : ExprNode) (o : Operation) :
  truthy (hintText (newNode a b o)) = true.
Proof. unfold hintText. simpl. apply truthy_app_r. Qed.

Lemma findFirstOperation_find (n : ExprNode) :
  built n ->
  truthy (findFirstOperation n) = isComposite n /\
  findFirstOperation n =
  match find isLeafPair (subtrees n) with
  | Some m => hintText m
  | None => ""%string
  end.
Proof.
  induction 1 as [v|a b o Ha [IHa1 IHa2] Hb [IHb1 IHb2] Ho Hs]; [split; reflexivity|].
  rewrite findFirstOperation_newNode, subtrees_newNode.
  cbn [find].
  destruct (isLeafPair (newNode a b o)) eqn:E.
  - split; [apply hintText_truthy|reflexivity].
  - rewrite find_app.
    destruct (truthy (findFirstOperation a)) eqn:Ta.
    + split; [assumption|].
      rewrite IHa2 in Ta |- *.
      destruct (find isLeafPair (subtrees a)); [reflexivity|discriminate].
    + assert (find isLeafPair (subtrees a) = None) as ->.
      { destruct (built_cases a Ha) as [[v ->]|(x & y & p & -> & _)]; [reflexivity|].
        discriminate IHa1. }
      split; [|assumption].
      rewrite IHb1.
      rewrite isLeafPair_newNode, <- IHa1 in E. simpl in E.
      now destruct (isComposite b).
Qed.

(** The hint is empty or prints two leaves of the tree. *)
Lemma findFirstOperation_prints_leaves (n : ExprNode) :
  built n ->
  findFirstOperation n = ""%string \/
  exists x y o,
    In x (leaves n) /\ In y (leaves n) /\ In o ops /\
    findFirstOperation n =
    (Number_toString x ++ " " ++ glyph (op o) ++ " " ++ Number_toString y)%string.
Proof.
  induction 1 as [v|a b o Ha IHa Hb IHb Ho Hs]; [now left|].
  rewrite findFirstOperation_newNode, leaves_newNode.
  destruct (isLeafPair (newNode a b o)) eqn:E.
  - right. rewrite isLeafPair_newNode in E.
    apply andb_true_iff in E. destruct E as [Ea Eb].
    apply negb_true_iff in Ea, Eb.
    destruct (built_cases a Ha) as [[va ->]|(? & ? & ? & -> & _)]; [|discriminate].
    destruct (built_cases b Hb) as [[vb ->]|(? & ? & ? & -> & _)]; [|discriminate].
    exists va, vb, o. simpl. auto.
  - destruct (truthy (findFirstOperation a)).
    + destruct IHa as [->|(x & y & p & Hx & Hy & Hp & ->)]; [now left|].
      right. exists x, y, p. repeat split; auto using in_or_app.
    + destruct IHb as [->|(x & y & p & Hx & Hy & Hp & ->)]; [now left|].
      right. exists x, y, p. repeat split; auto using in_or_app.
Qed.

(** *** The guard *)

Lemma near24_finite (v : float) :
  (abs (v - 24) <? EPSILON)%float = true -> isFinite v = true.
Proof.
  unfold isFinite. rewrite classify_spec, ltb_spec, abs_spec, sub_spec.
  destruct (Prim2SF v) as [s|s| |s m e].
  - destruct s; reflexivity.
  - destruct s; vm_compute; discriminate.
  - vm_compute; discriminate.
  - intros _. unfold SF64classify, SFclassify.
    destruct s;
      match goal with |- context [if ?c then _ else _] => destruct c end;
      reflexivity.
Qed.

Lemma built_division (n : ExprNode) :
  built n -> opStr n = Some "/"%string ->
  exists a b, left n = Some a /\ right n = Some b /\
              (abs (val b) <? EPSILON)%float = false /\
              val n = (val a / val b)%float.
Proof.
  intros [v|a b o Ha Hb Ho Hs]; [discriminate|].
  simpl. intros [= Hop]. exists a, b.
  unfold skipped in Hs. rewrite Hop in Hs. simpl in Hs.
  destruct (ops_cases o Ho) as [-> | [-> | [-> | ->]]]; try discriminate.
  auto.
Qed.

End TreeFacts.

(** ** Every small tree is enumerated *)

Lemma card_numbers_eq : card_numbers = map (fun z => (z, Z2F z)) card_values.
Proof. vm_compute. reflexivity. Qed.

Lemma card_values_range (z : Z) : (1 <= z <= 13)%Z -> In z card_values.
Proof.
  intros H.
  assert (E : z = Z.of_nat (Z.to_nat z)) by lia.
  rewrite E. unfold card_values. apply in_map, in_seq. lia.
Qed.

Lemma size_pos (t : shape) : 0 < size t.
Proof. induction t; simpl; lia. Qed.

Lemma val_node_of (t : shape) : val (node_of t) = value_of t.
Proof.
  induction t as [z|o l IHl r IHr]; simpl; [reflexivity|].
  now rewrite IHl, IHr.
Qed.

Lemma covers_each1 : covers each1 1.
Proof.
  intros k Hk [z|o l r] Hsize Hsmall; simpl in *.
  - unfold each1 in Hk. rewrite forallb_forall in Hk.
    apply (Hk (z, Z2F z)).
    rewrite card_numbers_eq. now apply (in_map (fun z => (z, Z2F z))).
  - pose proof (size_pos l). pose proof (size_pos r). lia.
Qed.

Lemma each_pair_sound (eachL eachR : (shape -> float -> bool) -> bool) (a b : nat) :
  covers eachL a -> covers eachR b ->
  forall k, each_pair eachL eachR k = true ->
  forall o l r,
    In o ops -> size l = a -> size r = b -> small l -> small r ->
    k (Node o l r) (value_of (Node o l r)) = true.
Proof.
  intros HL HR k Hk o l r Ho Hl Hr Hsl Hsr.
  unfold each_pair in Hk. rewrite forallb_forall in Hk.
  specialize (Hk o Ho).
  specialize (HL _ Hk l Hl Hsl). cbv beta in HL.
  exact (HR _ HL r Hr Hsr).
Qed.

Lemma covers_each2 : covers each2 2.
Proof.
  intros k Hk [z|o l r] Hsize (* size *) Hsmall; simpl in *; [lia|].
  destruct Hsmall as (Ho & Hl & Hr).
  pose proof (size_pos l). pose proof (size_pos r).
  apply (each_pair_sound each1 each1 1 1 covers_each1 covers_each1 k Hk); auto; lia.
Qed.

Lemma covers_each3 : covers each3 3.
Proof.
  intros k Hk [z|o l r] Hsize Hsmall; simpl in *; [lia|].
  destruct Hsmall as (Ho & Hl & Hr).
  pose proof (size_pos l). pose proof (size_pos r).
  unfold each3 in Hk. apply andb_true_iff in Hk. destruct Hk as [H21 H12].
  destruct (Nat.eq_dec (size l) 1) as [E|E].
  - apply (each_pair_sound each1 each2 1 2 covers_each1 covers_each2 k H12); auto; lia.
  - apply (each_pair_sound each2 each1 2 1 covers_each2 covers_each1 k H21); auto; lia.
Qed.

Lemma covers_each4 : covers each4 4.
Proof.
  intros k Hk [z|o l r] Hsize Hsmall; simpl in *; [lia|].
  destruct Hsmall as (Ho & Hl & Hr).
  pose proof (size_pos l). pose proof (size_pos r).
  unfold each4 in Hk. apply andb_true_iff in Hk. destruct Hk as [Hk H13].
  apply andb_true_iff in Hk. destruct Hk as [H31 H22].
  destruct (Nat.eq_dec (size l) 1) as [E1|E1];
    [|destruct (Nat.eq_dec (size l) 2) as [E2|E2]].
  - apply (each_pair_sound each1 each3 1 3 covers_each1 covers_each3 k H13); auto; lia.
  - apply (each_pair_sound each2 each2 2 2 covers_each2 covers_each2 k H22); auto; lia.
  - apply (each_pair_sound each3 each1 3 1 covers_each3 covers_each1 k H31); auto; lia.
Qed.

(** The check itself, by computation over the 9,139,520 small trees of
    size 4. *)
Lemma each4_text_agrees : each4 text_agrees = true.
Proof. vm_compute. reflexivity. Qed.

Section SmallTrees.

Variable Number_toString : float -> string.

Hypothesis Number_toString_small :
  forall z, In z card_values -> Number_toString (Z2F z) = decimal z.

Lemma shape_of_built (n : ExprNode) :
  built Number_toString n ->
  Forall (fun x => exists z, In z card_values /\ x = Z2F z) (leaves n) ->
  exists t, node_of t = n /\ small t /\ size t = List.length (leaves n).
Proof.
  induction 1 as [v|a b o Ha IHa Hb IHb Ho Hs]; intros Hl.
  - simpl in Hl. inversion Hl as [|? ? [z [Hz ->]] _]; subst.
    exists (Leaf z). simpl. unfold leafNode.
    now rewrite Number_toString_small.
  - rewrite leaves_newNode in Hl. apply Forall_app in Hl. destruct Hl as [Hla Hlb].
    destruct (IHa Hla) as (ta & <- & Hsa & Hza).
    destruct (IHb Hlb) as (tb & <- & Hsb & Hzb).
    exists (Node o ta tb). simpl. rewrite length_app. auto.
Qed.

End SmallTrees.

(** * Properties of the solver *)

Section SolverProperties.

Variable Number_toString : float -> string.

Local Abbreviation leafNode := (leafNode Number_toString).
Local Abbreviation built := (built Number_toString).
Local Abbreviation findFirstOperation := (findFirstOperation Number_toString).
Local Abbreviation hintText := (hintText Number_toString).
Local Abbreviation arith := (arith Number_toString).
Local Abbreviation solve24 := (solve24 Number_toString).
Local Abbreviation initialNodes := (initialNodes Number_toString).
Local Abbreviation plain := (plain Number_toString).

(** C1: for four integers between 1 and 13, printed in decimal, a solvable
    result carries a solution string that standard infix arithmetic (with
    [×] for multiplication, [÷] for division, parentheses, and association to
    the left) evaluates to a number within [EPSILON] of 24; this holds of the
    value computed in binary64 arithmetic, and the value in exact arithmetic
    is 24. *)
Theorem solve24_solution_evaluates_to_24 (a b c d : Z) (r : SolverResult) :
  (forall z, (1 <= z <= 13)%Z -> Number_toString (Z2F z) = decimal z) ->
  (1 <= a <= 13)%Z -> (1 <= b <= 13)%Z -> (1 <= c <= 13)%Z -> (1 <= d <= 13)%Z ->
  solve24 [Z2F a; Z2F b; Z2F c; Z2F d] = Returns r -> solvable r = true ->
  exists (s : string) (v : float) (q : Q),
    solution r = Some s /\
    Infix.evaluate s = Some v /\
    (abs (v - 24) <? EPSILON)%float = true /\
    Infix.evaluate_exact s = Some q /\
    (q == 24)%Q.
Proof.
  intros Hdec Ha Hb Hc Hd H Hs.
  destruct (solve24_solvable Number_toString _ r H Hs)
    as (root & _ & Hnear & Hbuilt & HP & Hsol & _).
  assert (Hleaves : Forall (fun x => exists z, In z card_values /\ x = Z2F z) (leaves root)).
  { eapply Permutation_Forall; [exact HP|].
    repeat constructor; eexists; (split; [apply card_values_range|reflexivity]);
      assumption. }
  assert (Hdec' : forall z, In z card_values -> Number_toString (Z2F z) = decimal z).
  { intros z Hz. apply Hdec. unfold card_values in Hz.
    apply in_map_iff in Hz. destruct Hz as [k [<- Hk]]. apply in_seq in Hk. lia. }
  destruct (shape_of_built Number_toString Hdec' root Hbuilt Hleaves)
    as (t & <- & Hsmall & Hsize).
  rewrite <- (Permutation_length HP) in Hsize. simpl in Hsize.
  pose proof (covers_each4 text_agrees each4_text_agrees t Hsize Hsmall) as Hok.
  unfold text_agrees in Hok.
  unfold near24 in Hnear. rewrite val_node_of in Hnear. rewrite Hnear in Hok.
  destruct (Infix.read (prettySolution (str (node_of t)))) as [e|] eqn:E;
    [|discriminate].
  apply andb_true_iff in Hok. destruct Hok as [Hv Hq].
  destruct (Infix.exact e) as [q|] eqn:Eq; [|discriminate].
  exists (prettySolution (str (node_of t))), (Infix.value e), q.
  unfold Infix.evaluate, Infix.evaluate_exact. rewrite E. simpl.
  split; [assumption|]. split; [reflexivity|]. split; [exact Hv|].
  split; [assumption|]. now apply Qeq_bool_iff.
Qed.

(** C2: when [solve24] reports a solvable input, the solution string is an
    arithmetic expression over [+], [-], [×], [÷] and parentheses whose
    operands, counted with multiplicity, are exactly the input numbers. *)
Theorem solve24_solution_uses_each_number_once
  (numbers : list float) (r : SolverResult) :
  plain numbers ->
  solve24 numbers = Returns r -> solvable r = true ->
  exists (s : string) (operands : list float),
    solution r = Some s /\ arith operands s /\ Permutation operands numbers.
Proof.
  intros Hplain H Hs.
  destruct (solve24_solvable Number_toString numbers r H Hs) as (root & _ & _ & Hb & HP & Hsol & _).
  exists (prettySolution (str root)), (leaves root).
  split; [assumption|]. split; [|now symmetry].
  apply built_arith; [assumption|].
  unfold plain in Hplain. eapply Permutation_Forall; eassumption.
Qed.


(** C5: the text of a composite built from [a], [b] and an operator is the
    left text, a space, the operator, a space, the right text, where the left
    child is parenthesized iff it is a composite of a lower level, and the
    right child iff it is a composite of a lower level, or of the same level
    under [-] or [/]; in the displayed solution the operator is shown by its
    sign. *)
Theorem newNode_parenthesization (a b : ExprNode) (operation : Operation) :
  built a -> built b -> In operation ops ->
  str (newNode a b operation) =
    (leftText a operation ++ " " ++ op operation ++ " " ++ rightText b operation)%string /\
  opLevel (newNode a b operation) = level operation /\
  prettySolution (str (newNode a b operation)) =
    (prettySolution (leftText a operation) ++ " " ++ glyph (op operation) ++ " " ++
     prettySolution (rightText b operation))%string.
Proof.
  intros Ha Hb Ho. split; [|split].
  - now apply (newNode_text Number_toString).
  - reflexivity.
  - now apply (prettySolution_newNode Number_toString).
Qed.


(** C7: [solve24] returns on every input, it never throws.  For a solvable
    input of finite numbers: the value of the solution is finite; the
    solution string is the text of a tree whose leaves are the inputs, so the
    operands it prints are finite numbers; the hint is empty or prints two of
    the inputs; and the divisor of every division in the tree passed the
    guard.  In the search, a division whose divisor is within [EPSILON] of
    zero is skipped: no frontier is built from it. *)
Theorem solve24_never_throws_nor_divides_by_zero (numbers : list float) :
  (exists r, solve24 numbers = Returns r) /\
  (forall r,
     solve24 numbers = Returns r -> solvable r = true ->
     Forall (fun x => isFinite x = true) numbers ->
     exists root s hint,
       solution r = Some s /\ firstStepHint r = Some hint /\
       built root /\
       isFinite (val root) = true /\
       Forall (fun x => isFinite x = true) (leaves root) /\
       (plain numbers -> arith (leaves root) s) /\
       (hint = ""%string \/
        exists x y o,
          In x numbers /\ isFinite x = true /\ In y numbers /\ isFinite y = true /\
          In o ops /\
          hint = (Number_toString x ++ " " ++ glyph (op o) ++ " " ++
                  Number_toString y)%string) /\
       (forall m, In m (subtrees root) -> opStr m = Some "/"%string ->
          exists a b, left m = Some a /\ right m = Some b /\
                      (abs (val b) <? EPSILON)%float = false)) /\
  (forall (nodes : list ExprNode) (a b : ExprNode) (operation : Operation),
     op operation = "/"%string -> (abs (val b) <? EPSILON)%float = true ->
     skipped b operation = true /\
     forall rest, ~ In (rest ++ [newNode a b operation]) (candidates nodes)).
Proof.
  split; [apply solve24_total|]. split.
  - intros r H Hs Hfin.
    destruct (solve24_solvable Number_toString numbers r H Hs)
      as (root & _ & Hnear & Hb & HP & Hsol & Hhint).
    assert (Hleaves : Forall (fun x => isFinite x = true) (leaves root))
      by (eapply Permutation_Forall; eassumption).
    exists root, (prettySolution (str root)), (findFirstOperation root).
    split; [assumption|]. split; [assumption|]. split; [assumption|].
    split; [now apply near24_finite|]. split; [assumption|].
    split; [|split].
    + intros Hplain. apply built_arith; [assumption|].
      eapply Permutation_Forall; eassumption.
    + destruct (findFirstOperation_prints_leaves Number_toString root Hb)
        as [->|(x & y & o & Hx & Hy & Ho & ->)]; [now left|].
      right. exists x, y, o. rewrite Forall_forall in Hleaves.
      repeat split; auto; eapply Permutation_in; try eassumption; now symmetry.
    + intros m Hin Hop.
      pose proof (subtrees_built Number_toString root Hb) as Hall.
      rewrite Forall_forall in Hall.
      destruct (built_division Number_toString m (Hall m Hin) Hop)
        as (a & b & Hl & Hr & Hg & _).
      eauto.
  - intros nodes a b o Hop Hsmall.
    assert (Hskip : skipped b o = true)
      by (unfold skipped; rewrite Hop, Hsmall; reflexivity).
    split; [assumption|].
    intros rest Hin. apply candidates_spec in Hin.
    destruct Hin as (i & j & a' & b' & o' & _ & _ & _ & _ & Hs' & Heq).
    apply app_inj_tail in Heq. destruct Heq as [_ Heq].
    injection Heq as _ _ _ _ Hb' Hop'.
    unfold skipped in Hs', Hskip. rewrite <- Hb', <- Hop' in Hs'. congruence.
Qed.

(** C10: the search terminates.  Every frontier the recursive case recurses
    on is one element shorter than the frontier it was given; a frontier of n
    nodes has at most n (n - 1) 4 of them, 48 for the four nodes of the entry
    point; on a frontier of four nodes the search returns within fuel 4, that
    is three levels of recursion below the entry; and [solve24] returns on
    every input. *)
Theorem findSolution_terminates :
  (forall fuel nodes,
     List.length nodes <> 1 ->
     findSolution (S fuel) nodes = for_of (candidates nodes) (findSolution fuel)) /\
  (forall nodes c, In c (candidates nodes) -> S (List.length c) = List.length nodes) /\
  (forall nodes,
     List.length (candidates nodes) <=
     List.length nodes * ((List.length nodes - 1) * 4)) /\
  (forall nodes,
     List.length nodes = 4 ->
     List.length (candidates nodes) <= 48 /\
     exists r, findSolution 4 nodes = Returns r) /\
  (forall fuel nodes,
     0 < fuel -> List.length nodes <= fuel ->
     exists r, findSolution fuel nodes = Returns r) /\
  (forall numbers, exists r, solve24 numbers = Returns r).
Proof.
  split; [exact findSolution_step|].
  split; [exact candidates_length|].
  split; [exact candidates_count|].
  split; [|split; [exact findSolution_total|apply solve24_total]].
  intros nodes Hlen. split.
  - pose proof (candidates_count nodes) as H. rewrite Hlen in H. exact H.
  - apply findSolution_total; lia.
Qed.

End SolverProperties.


(** ** The dealer *)

Lemma nth_error_update_nth {A : Type} (l : list A) :
  forall i j y,
    nth_error (update_nth i y l) j =
    if (i =? j) && (i <? List.length l) then Some y else nth_error l j.
Proof.
  induction l as [|a l IH]; intros i j y.
  - destruct i; simpl; rewrite ?andb_false_r; reflexivity.
  - destruct i as [|i], j as [|j]; simpl; try reflexivity.
    rewrite IH. reflexivity.
Qed.

Lemma update_nth_perm {A : Type} (l : list A) :
  forall i x y,
    nth_error l i = Some x -> Permutation (y :: l) (x :: update_nth i y l).
Proof.
  induction l as [|a l IH]; intros i x y H.
  - destruct i; discriminate.
  - destruct i as [|i]; simpl in *.
    + injection H as ->. apply perm_swap.
    + transitivity (a :: y :: l); [apply perm_swap|].
      transitivity (a :: x :: update_nth i y l); [|apply perm_swap].
      apply perm_skip. now apply IH.
Qed.

Lemma swap_perm {A : Type} (i j : nat) (l l' : list A) :
  swap i j l = Some l' -> Permutation l l'.
Proof.
  unfold swap.
  destruct (nth_error l i) as [x|] eqn:Hi; [|discriminate].
  destruct (nth_error l j) as [y|] eqn:Hj; [|discriminate].
  intros [= <-].
  apply (Permutation_cons_inv (a := y)).
  rewrite (update_nth_perm l i x y Hi).
  apply update_nth_perm.
  rewrite nth_error_update_nth.
  destruct (Nat.eqb_spec i j) as [->|_]; simpl; [|assumption].
  assert (j < List.length l) by (apply nth_error_Some; congruence).
  destruct (Nat.ltb_spec j (List.length l)); [reflexivity|lia].
Qed.

Lemma swap_some {A : Type} (i j : nat) (l : list A) :
  i < List.length l -> j < List.length l -> exists l', swap i j l = Some l'.
Proof.
  intros Hi Hj. unfold swap.
  destruct (nth_error l i) eqn:Ei; [|apply nth_error_None in Ei; lia].
  destruct (nth_error l j) eqn:Ej; [|apply nth_error_None in Ej; lia].
  eauto.
Qed.

Lemma floor_nonneg (x : float) (z : Z) : floor x = Some z -> (0 <= z)%Z.
Proof.
  unfold floor. destruct (Prim2SF x) as [s|s| |s m e]; try discriminate.
  - intros [= <-]. lia.
  - destruct s; [discriminate|]. intros [= <-].
    destruct e as [|p|p]; [lia| |].
    + apply (proj2 (Z.shiftl_nonneg (Z.pos m) (Z.pos p))). lia.
    + apply (proj2 (Z.shiftr_nonneg (Z.pos m) (Z.pos p))). lia.
Qed.

Lemma floor_index_weaken (x : float) (n len j : nat) :
  floor_index x n = Some j -> n <= len -> floor_index x len = Some j /\ j < n.
Proof.
  unfold floor_index. destruct (floor x) as [z|] eqn:E; [|discriminate].
  apply floor_nonneg in E.
  destruct (Z.ltb_spec z (Z.of_nat n)); [|discriminate].
  intros [= <-] Hle.
  destruct (Z.ltb_spec z (Z.of_nat len)); [|lia].
  split; [reflexivity|lia].
Qed.

Lemma flat_map_ext_in {A B : Type} (f g : A -> list B) (l : list A) :
  (forall x, In x l -> f x = g x) -> flat_map f l = flat_map g l.
Proof.
  induction l as [|x l IH]; intros H; simpl; [reflexivity|].
  rewrite (H x (or_introl eq_refl)), IH; [reflexivity|].
  intros y Hy. apply H. now right.
Qed.

Lemma flat_map_length_const {A B : Type} (f : A -> list B) (c : nat) (l : list A) :
  (forall x, List.length (f x) = c) ->
  List.length (flat_map f l) = c * List.length l.
Proof.
  intros H. induction l as [|x l IH]; simpl; [lia|].
  rewrite length_app, H, IH. lia.
Qed.

Lemma map_of_flat_map {A B C : Type} (g : B -> C) (f : A -> list B) (l : list A) :
  map g (flat_map f l) = flat_map (fun x => map g (f x)) l.
Proof.
  induction l as [|x l IH]; simpl; [reflexivity|].
  now rewrite map_app, IH.
Qed.

Section DealerFacts.

Variable Number_toString : float -> string.
Variable Math_random : nat -> float.

Local Abbreviation newCard := (newCard Number_toString).
Local Abbreviation generateDeck := (generateDeck Number_toString Math_random).
Local Abbreviation shuffleFrom := (shuffleFrom Math_random).
Local Abbreviation shuffleDeck := (shuffleDeck Math_random).
Local Abbreviation deck_from := (deck_from Number_toString Math_random).
Local Abbreviation attempt := (attempt Number_toString Math_random).
Local Abbreviation fallback := (fallback Number_toString Math_random).
Local Abbreviation drawLoop := (drawLoop Number_toString Math_random).
Local Abbreviation drawCards := (drawCards Number_toString Math_random).
Local Abbreviation failed_attempts := (failed_attempts Number_toString Math_random).
Local Abbreviation unit_random := (unit_random Math_random).

Lemma generate_from (n : nat) :
  forall a k,
    for_push (seq a n) (fun i =>
      for_push suits (fun s =>
        r <- random Math_random ;;
        ret [newCard i s r])) k =
    Returns
      (flat_map (fun i =>
         [ newCard i Hearts (Math_random (k + 4 * (i - a)));
           newCard i Diamonds (Math_random (k + 4 * (i - a) + 1));
           newCard i Clubs (Math_random (k + 4 * (i - a) + 2));
           newCard i Spades (Math_random (k + 4 * (i - a) + 3)) ]) (seq a n),
       k + 4 * n).
Proof.
  induction n as [|n IH]; intros a k.
  - simpl. unfold ret. f_equal. f_equal. lia.
  - cbn [seq for_push]. unfold bind at 1.
    change (for_push suits (fun s => r <- random Math_random ;; ret [newCard a s r]) k)
      with (Returns
              ([ newCard a Hearts (Math_random k);
                 newCard a Diamonds (Math_random (S k));
                 newCard a Clubs (Math_random (S (S k)));
                 newCard a Spades (Math_random (S (S (S k)))) ],
               S (S (S (S k))))).
    cbv beta iota. unfold bind at 1. rewrite IH. unfold ret.
    cbn [flat_map]. f_equal. f_equal; [|lia].
    cbn [app]. rewrite Nat.sub_diag, Nat.mul_0_r, Nat.add_0_r.
    replace (k + 1) with (S k) by lia.
    replace (k + 2) with (S (S k)) by lia.
    replace (k + 3) with (S (S (S k))) by lia.
    do 4 f_equal.
    apply flat_map_ext_in. intros i Hi. apply in_seq in Hi.
    replace (S (S (S (S k))) + 4 * (i - S a)) with (k + 4 * (i - a)) by lia.
    reflexivity.
Qed.

Lemma generateDeck_spec (difficulty : Difficulty) (k : nat) :
  generateDeck difficulty k =
  Returns (deck_from difficulty k, k + 4 * maxVal difficulty).
Proof. unfold generateDeck, deck_from. apply generate_from. Qed.

Lemma deck_from_length (difficulty : Difficulty) (k : nat) :
  List.length (deck_from difficulty k) = 4 * maxVal difficulty.
Proof.
  unfold deck_from.
  rewrite (flat_map_length_const _ 4), length_seq; reflexivity.
Qed.

Lemma deck_from_cards (difficulty : Difficulty) (k : nat) :
  map (fun c => (value c, suit c)) (deck_from difficulty k) =
  flat_map (fun i => map (fun s => (number_of_nat i, s)) suits)
    (seq 1 (maxVal difficulty)).
Proof.
  unfold deck_from. rewrite map_of_flat_map. reflexivity.
Qed.

Lemma shuffleFrom_spec :
  unit_random ->
  forall i deck k,
    i < List.length deck \/ i = 0 -> List.length deck <= 52 ->
    exists shuffled,
      shuffleFrom i deck k = Returns (shuffled, k + i) /\ Permutation deck shuffled.
Proof.
  intros Hrand. induction i as [|i IH]; intros deck k Hi Hlen.
  - exists deck. simpl. unfold ret. rewrite Nat.add_0_r. auto.
  - destruct Hi as [Hi|Hi]; [|discriminate].
    change (shuffleFrom (S i) deck k) with
      (match
         floor_index (Math_random k * number_of_nat (S i + 1))%float (List.length deck)
       with
       | Some j =>
           match swap (S i) j deck with
           | Some swapped => shuffleFrom i swapped
           | None => throw OutOfModel
           end
       | None => throw OutOfModel
       end (S k)).
    destruct (Hrand k (S i + 1)) as [j Hj]; [lia|].
    destruct (floor_index_weaken _ _ (List.length deck) _ Hj) as [-> Hlt]; [lia|].
    destruct (swap_some (S i) j deck) as [swapped Hsw]; [lia|lia|].
    rewrite Hsw.
    pose proof (swap_perm _ _ _ _ Hsw) as HP.
    destruct (IH swapped (S k)) as [sh [Hsh HP']].
    + left. rewrite <- (Permutation_length HP). lia.
    + rewrite <- (Permutation_length HP). assumption.
    + exists sh. split; [|now transitivity swapped].
      rewrite Hsh. f_equal. f_equal. lia.
Qed.

Lemma fallback_spec (count : Z) (difficulty : Difficulty) (k : nat) :
  fallback count difficulty k =
  Returns (slice0 count (deck_from difficulty k), k + 4 * maxVal difficulty).
Proof.
  unfold fallback, bind. rewrite generateDeck_spec. reflexivity.
Qed.

Lemma attempt_spec :
  unit_random ->
  forall count difficulty k,
  exists shuffled result,
    Permutation (deck_from difficulty k) shuffled /\
    solve24 Number_toString (map value (slice0 count shuffled)) = Returns result /\
    attempt count difficulty k =
    Returns ((slice0 count shuffled, result), k + 8 * maxVal difficulty - 1).
Proof.
  intros Hrand count difficulty k.
  pose proof (deck_from_length difficulty k) as Hlen.
  assert (Hmax : 10 <= maxVal difficulty <= 13) by (destruct difficulty; simpl; lia).
  destruct (shuffleFrom_spec Hrand (List.length (deck_from difficulty k) - 1)
              (deck_from difficulty k) (k + 4 * maxVal difficulty))
    as [shuffled [Hsh HP]]; [lia|lia|].
  destruct (solve24_total Number_toString (map value (slice0 count shuffled)))
    as [result Hres].
  exists shuffled, result. split; [assumption|]. split; [assumption|].
  unfold attempt, bind. rewrite generateDeck_spec.
  unfold shuffleDeck. rewrite Hsh, Hres. unfold ret.
  f_equal. f_equal. lia.
Qed.

Lemma drawLoop_spec :
  unit_random ->
  forall count difficulty n fuel attempts k,
    attempts + n = 100 -> n < fuel ->
    exists hand k',
      drawLoop fuel attempts count difficulty k = Returns (hand, k') /\
      ((exists m k0 result,
          m < n /\ failed_attempts count difficulty m k k0 /\
          attempt count difficulty k0 = Returns ((hand, result), k') /\
          solvable result = true) \/
       (exists k0,
          failed_attempts count difficulty n k k0 /\
          fallback count difficulty k0 = Returns (hand, k'))).
Proof.
  intros Hrand count difficulty.
  induction n as [|n IH]; intros fuel attempts k Hn Hfuel;
    (destruct fuel as [|fuel]; [lia|]); cbn [Datatypes.fst].
  - assert (attempts = 100) as -> by lia.
    change (drawLoop (S fuel) 100 count difficulty k)
      with (fallback count difficulty k).
    rewrite fallback_spec. do 2 eexists. split; [reflexivity|].
    right. exists k. split; [constructor|apply fallback_spec].
  - destruct (attempt_spec Hrand count difficulty k)
      as (shuffled & result & HP & Hres & Hatt).
    assert (Hunfold :
      drawLoop (S fuel) attempts count difficulty k =
      if solvable result
      then Returns (slice0 count shuffled, k + 8 * maxVal difficulty - 1)
      else drawLoop fuel (S attempts) count difficulty
             (k + 8 * maxVal difficulty - 1)).
    {       replace (drawLoop (S fuel) attempts count difficulty k) with
        ((hr <- attempt count difficulty ;;
          if solvable (snd hr) then ret (fst hr)
          else drawLoop fuel (S attempts) count difficulty) k).
      - unfold bind. rewrite Hatt. simpl. destruct (solvable result); reflexivity.
      - simpl. destruct (Nat.ltb_spec attempts 100); [reflexivity|lia]. }
    rewrite Hunfold.
    destruct (solvable result) eqn:Hsolv.
    + do 2 eexists. split; [reflexivity|].
      left. exists 0, k, result.
      split; [lia|]. split; [constructor|]. split; assumption.
    + destruct (IH fuel (S attempts) (k + 8 * maxVal difficulty - 1))
        as (hand & k' & Hdraw & Hcases); [lia|lia|].
      exists hand, k'. split; [assumption|].
      destruct Hcases as [(m & k0 & res & Hm & Hfail & Hatt' & Hs)|(k0 & Hfail & Hfb)].
      * left. exists (S m), k0, res.
        split; [lia|]. split; [econstructor; eassumption|]. split; assumption.
      * right. exists k0. split; [|assumption].
        econstructor; eassumption.
Qed.

End DealerFacts.

(** * Properties of the dealer *)

Lemma slice0_firstn {A : Type} (count : Z) (l : list A) :
  (0 <= count)%Z -> slice0 count l = firstn (Z.to_nat count) l.
Proof.
  intros H. unfold slice0.
  destruct (Z.ltb_spec count 0); [lia|].
  destruct (Z.le_gt_cases count (Z.of_nat (List.length l))).
  - now rewrite Z.min_l.
  - rewrite Z.min_r by lia. rewrite Nat2Z.id.
    rewrite firstn_all. symmetry. apply firstn_all2. lia.
Qed.

Section DealerProperties.

Variable Number_toString : float -> string.
Variable Math_random : nat -> float.

Local Abbreviation solve24 := (solve24 Number_toString).
Local Abbreviation generateDeck := (generateDeck Number_toString Math_random).
Local Abbreviation deck_from := (deck_from Number_toString Math_random).
Local Abbreviation attempt := (attempt Number_toString Math_random).
Local Abbreviation fallback := (fallback Number_toString Math_random).
Local Abbreviation drawCards := (drawCards Number_toString Math_random).
Local Abbreviation failed_attempts := (failed_attempts Number_toString Math_random).
Local Abbreviation unit_random := (unit_random Math_random).


(** C9: [solve24] reports [1, 1, 1, 1] unsolvable; for [count] 4 the fallback
    hand is the first four cards of a fresh deck, whose values are
    [1, 1, 1, 1] at either difficulty; so a hand of four that [drawCards]
    returns is either one that [solve24] reported solvable, or, after 100
    failed attempts, this unsolvable one. *)
Theorem fallback_hand_of_four_is_unsolvable (difficulty : Difficulty) :
  solve24 [1; 1; 1; 1]%float = Returns (MkSolverResult false None None) /\
  (forall k0,
     fallback 4 difficulty k0 =
       Returns (slice0 4 (deck_from difficulty k0), k0 + 4 * maxVal difficulty) /\
     slice0 4 (deck_from difficulty k0) = firstn 4 (deck_from difficulty k0) /\
     map value (slice0 4 (deck_from difficulty k0)) = [1; 1; 1; 1]%float) /\
  (unit_random ->
   forall k,
   exists hand k',
     drawCards 4 difficulty k = Returns (hand, k') /\
     ((exists result,
         solve24 (map value hand) = Returns result /\ solvable result = true) \/
      (exists k0,
         failed_attempts 4 difficulty 100 k k0 /\
         hand = firstn 4 (deck_from difficulty k0) /\
         map value hand = [1; 1; 1; 1]%float /\
         solve24 (map value hand) = Returns (MkSolverResult false None None)))).
Proof.
  assert (Hones : solve24 [1; 1; 1; 1]%float = Returns (MkSolverResult false None None))
    by (vm_compute; reflexivity).
  assert (Hvalues : forall k0,
            map value (slice0 4 (deck_from difficulty k0)) = [1; 1; 1; 1]%float)
    by (intros k0; destruct difficulty; reflexivity).
  split; [exact Hones|]. split.
  - intros k0. split; [apply fallback_spec|]. split; [|apply Hvalues].
    apply (slice0_firstn 4 (deck_from difficulty k0)). lia.
  - intros Hrand k.
    destruct (drawLoop_spec Number_toString Math_random Hrand 4 difficulty
                100 101 0 k) as (hand & k' & Hdraw & Hcases); [reflexivity|lia|].
    exists hand, k'. split; [exact Hdraw|].
    destruct Hcases as [(m & k0 & res & Hm & Hfail & Hatt & Hs)|(k0 & Hfail & Hfb)].
    + left. exists res. split; [|assumption].
      destruct (attempt_spec Number_toString Math_random Hrand 4 difficulty k0)
        as (shuffled & result & _ & Hres & Hatt').
      rewrite Hatt in Hatt'. injection Hatt' as -> -> _. assumption.
    + right. exists k0. rewrite fallback_spec in Hfb. injection Hfb as <- _.
      split; [assumption|]. split; [apply (slice0_firstn 4 (deck_from difficulty k0)); lia|].
      split; [apply Hvalues|]. rewrite Hvalues. exact Hones.
Qed.

End DealerProperties.

(** * Instances *)

(** [integer_toString] prints the card values in decimal. *)
Lemma integer_toString_small (z : Z) :
  (1 <= z <= 13)%Z -> integer_toString (Z2F z) = decimal z.
Proof.
  intros H.
  assert (E : In z card_values) by now apply card_values_range.
  unfold card_values in E. simpl in E.
  repeat (destruct E as [<-|E]; [reflexivity|]). contradiction.
Qed.

(** A source that always returns one half. *)
Lemma unit_random_half : unit_random (fun _ => 0.5%float).
Proof.
  intros k n Hn.
  assert (E : In n (seq 1 52)) by (apply in_seq; lia).
  simpl in E.
  repeat (destruct E as [<-|E]; [eexists; vm_compute; reflexivity|]).
  contradiction.
Qed.

Lemma solve24_solution_evaluates_to_24_witness :
  exists (s : string) (v : float) (q : Q),
    solution (MkSolverResult true (Some "8 × (7 - 4 × 1)"%string) (Some "4 × 1"%string)) = Some s /\
    Infix.evaluate s = Some v /\
    (abs (v - 24) <? EPSILON)%float = true /\
    Infix.evaluate_exact s = Some q /\
    (q == 24)%Q.
Proof.
  apply (solve24_solution_evaluates_to_24 integer_toString 4 1 8 7).
  - exact integer_toString_small.
  - lia.
  - lia.
  - lia.
  - lia.
  - vm_compute. reflexivity.
  - reflexivity.
Defined.

Lemma solve24_solution_uses_each_number_once_witness :
  exists (s : string) (operands : list float),
    solution (MkSolverResult true (Some "8 ÷ (3 - 8 ÷ 3)"%string) (Some "8 ÷ 3"%string)) = Some s /\
    arith integer_toString operands s /\
    Permutation operands [3; 3; 8; 8]%float.
Proof.
  apply (solve24_solution_uses_each_number_once integer_toString [3; 3; 8; 8]%float).
  - repeat constructor.
  - vm_compute. reflexivity.
  - reflexivity.
Defined.

Lemma newNode_parenthesization_witness :
  let minus := MkOperation "-" PrimFloat.sub 1 in
  let divide := MkOperation "/" PrimFloat.div 2 in
  let a := newNode (leafNode integer_toString 9) (leafNode integer_toString 3) minus in
  let c := leafNode integer_toString 2 in
  str (newNode a c divide) = "(9 - 3) / 2"%string /\
  str (newNode c a minus) = "2 - (9 - 3)"%string /\
  prettySolution (str (newNode a c divide)) = "(9 - 3) ÷ 2"%string.
Proof.
  intros minus divide a c.
  assert (Ha : built integer_toString a).
  { apply built_composite.
    - apply built_leaf.
    - apply built_leaf.
    - simpl. auto.
    - reflexivity. }
  assert (Hc : built integer_toString c) by apply built_leaf.
  destruct (newNode_parenthesization integer_toString a c divide Ha Hc)
    as (H1 & _ & H3); [simpl; auto|].
  destruct (newNode_parenthesization integer_toString c a minus Hc Ha)
    as (H2 & _ & _); [simpl; auto|].
  rewrite H3, H1, H2. repeat split; reflexivity.
Defined.



(** ** Examples *)

(** The frontiers tried for three leaves, in order, by their texts. *)
Example candidates_of_three :
  map (map str) (candidates (initialNodes integer_toString [1; 2; 3]%float)) =
  [ ["3"; "1 + 2"]; ["3"; "1 - 2"]; ["3"; "1 * 2"]; ["3"; "1 / 2"];
    ["2"; "1 + 3"]; ["2"; "1 - 3"]; ["2"; "1 * 3"]; ["2"; "1 / 3"];
    ["3"; "2 + 1"]; ["3"; "2 - 1"]; ["3"; "2 * 1"]; ["3"; "2 / 1"];
    ["1"; "2 + 3"]; ["1"; "2 - 3"]; ["1"; "2 * 3"]; ["1"; "2 / 3"];
    ["2"; "3 + 1"]; ["2"; "3 - 1"]; ["2"; "3 * 1"]; ["2"; "3 / 1"];
    ["1"; "3 + 2"]; ["1"; "3 - 2"]; ["1"; "3 * 2"]; ["1"; "3 / 2"] ]%string.
Proof. vm_compute. reflexivity. Qed.

(** A division by zero is not tried. *)
Example candidates_skip_zero_divisor :
  map (map str) (candidates (initialNodes integer_toString [5; 0]%float)) =
  [ ["5 + 0"]; ["5 - 0"]; ["5 * 0"];
    ["0 + 5"]; ["0 - 5"]; ["0 * 5"]; ["0 / 5"] ]%string.
Proof. vm_compute. reflexivity. Qed.

(** Four nodes need three levels of recursion below the entry: fuel 3 is
    not enough, fuel 4 is. *)
Example findSolution_depth_of_four :
  findSolution 3 (initialNodes integer_toString [1; 1; 1; 1]%float) = Throws OutOfFuel /\
  findSolution 4 (initialNodes integer_toString [1; 1; 1; 1]%float) = Returns None.
Proof. split; vm_compute; reflexivity. Qed.

Example solve24_4187 :
  solve24 integer_toString [4; 1; 8; 7]%float =
  Returns (MkSolverResult true (Some "8 × (7 - 4 × 1)"%string) (Some "4 × 1"%string)).
Proof. vm_compute. reflexivity. Qed.

Example solve24_zeros :
  solve24 integer_toString [0; 0; 0; 0]%float = Returns (MkSolverResult false None None).
Proof. vm_compute. reflexivity. Qed.

(** A single number 24 is its own solution, with an empty hint. *)
Example solve24_single_leaf :
  solve24 integer_toString [24]%float =
  Returns (MkSolverResult true (Some "24"%string) (Some ""%string)).
Proof. vm_compute. reflexivity. Qed.

(** The tree found for [2, 3, 4] is 4 × (2 × 3): its text needs no
    parentheses, and the hint names the inner product. *)
Example solve24_234 :
  solve24 integer_toString [2; 3; 4]%float =
  Returns (MkSolverResult true (Some "4 × 2 × 3"%string) (Some "2 × 3"%string)).
Proof. vm_compute. reflexivity. Qed.

(** Finite inputs can overflow inside the search: the tree found for
    [2^1023, 2^1023, 1, 24] is 24 + 1 / (2^1023 + 2^1023), whose inner sum is
    infinite while the value of the tree and its leaves are finite. *)
Example solve24_overflow_inside :
  match findSolution 5 (initialNodes integer_toString [0x1p1023; 0x1p1023; 1; 24]%float) with
  | Returns (Some root) =>
      Some (map (fun m => isFinite (val m)) (subtrees root), map isFinite (leaves root))
  | _ => None
  end =
  Some ([true; true; true; true; false; true; true], [true; true; true; true]).
Proof. vm_compute. reflexivity. Qed.

(** With a source that always returns 0, all 100 attempts at a hand of four
    fail and the fallback hand is dealt. *)
Example drawCards_zero_source_falls_back :
  match drawCards integer_toString (fun _ => 0%float) 4 Hard 0 with
  | Returns (hand, k') => Some (map value hand, Nat.eqb k' (100 * 103 + 52))
  | Throws _ => None
  end = Some ([1; 1; 1; 1]%float, true).
Proof. vm_compute. reflexivity. Qed.

(** * More about the solver *)

(** ** The search reaches every tree over the frontier *)

Lemma assembles_nonempty (frontier : list ExprNode) (t : ExprNode) :
  assembles frontier t -> 0 < List.length frontier.
Proof.
  induction 1 as [n|F F1 F2 a b o Ha IHa Hb IHb Ho Hs HP]; simpl; [lia|].
  rewrite (Permutation_length HP), length_app. lia.
Qed.

Lemma assembles_single (n t : ExprNode) : assembles [n] t -> t = n.
Proof.
  intros H. inversion H as [|F F1 F2 a b o Ha Hb Ho Hs HP]; subst; [reflexivity|].
  apply Permutation_length in HP. rewrite length_app in HP. simpl in HP.
  apply assembles_nonempty in Ha, Hb. lia.
Qed.

Lemma assembles_perm (frontier frontier' : list ExprNode) (t : ExprNode) :
  Permutation frontier frontier' -> assembles frontier t -> assembles frontier' t.
Proof.
  intros HP H. revert frontier' HP.
  induction H as [n|F F1 F2 a b o Ha IHa Hb IHb Ho Hs HP']; intros F' HP.
  - apply Permutation_length_1_inv in HP. subst. constructor.
  - eapply assembles_node; eauto.
    transitivity F; [now symmetry|assumption].
Qed.

(** A tree over two nodes or more has an innermost operation on two of them;
    performing it first leaves a frontier the tree still assembles. *)
Lemma assembles_first_step (frontier : list ExprNode) (t : ExprNode) :
  assembles frontier t -> 2 <= List.length frontier ->
  exists x y p rest,
    Permutation frontier (x :: y :: rest) /\
    In p ops /\ skipped y p = false /\
    assembles (rest ++ [newNode x y p]) t.
Proof.
  induction 1 as [n|F F1 F2 a b o Ha IHa Hb IHb Ho Hs HP]; intros Hlen;
    [simpl in Hlen; lia|].
  pose proof (assembles_nonempty _ _ Ha) as Hna.
  pose proof (assembles_nonempty _ _ Hb) as Hnb.
  destruct (le_lt_dec 2 (List.length F1)) as [H1|H1].
  - destruct (IHa H1) as (x & y & p & rest & HP1 & Hp & Hsk & Hasm).
    exists x, y, p, (rest ++ F2). repeat split; try assumption.
    + rewrite HP, HP1. reflexivity.
    + eapply assembles_node; [exact Hasm|exact Hb|assumption|assumption|].
      rewrite <- !app_assoc. apply Permutation_app_head, Permutation_app_comm.
  - destruct F1 as [|a' [|? ?]]; simpl in *; try lia.
    apply assembles_single in Ha. subst a'.
    destruct (le_lt_dec 2 (List.length F2)) as [H2|H2].
    + destruct (IHb H2) as (x & y & p & rest & HP2 & Hp & Hsk & Hasm).
      exists x, y, p, (a :: rest). repeat split; try assumption.
      * rewrite HP, HP2.
        transitivity (x :: a :: y :: rest); [apply perm_swap|].
        apply perm_skip, perm_swap.
      * eapply assembles_node; [constructor|exact Hasm|assumption|assumption|].
        reflexivity.
    + destruct F2 as [|b' [|? ?]]; simpl in *; try lia.
      apply assembles_single in Hb. subst b'.
      exists a, b, o, []. repeat split; try assumption. constructor.
Qed.

Lemma permutation_two_indices {A : Type} (l rest : list A) (x y : A) :
  Permutation l (x :: y :: rest) ->
  exists i j, i <> j /\ nth_error l i = Some x /\ nth_error l j = Some y.
Proof.
  intros HP.
  assert (Hx : In x l) by (eapply Permutation_in; [symmetry; exact HP|now left]).
  destruct (in_split _ _ Hx) as (l1 & l2 & ->).
  assert (HP' : Permutation (y :: rest) (l1 ++ l2)).
  { apply Permutation_cons_app_inv with (a := x). now symmetry. }
  assert (Hy : In y (l1 ++ l2)) by (eapply Permutation_in; [exact HP'|now left]).
  exists (List.length l1).
  apply in_app_or in Hy. destruct Hy as [Hy|Hy].
  - destruct (In_nth_error _ _ Hy) as [j Hj].
    assert (j < List.length l1) by (apply nth_error_Some; congruence).
    exists j. split; [lia|]. split.
    + rewrite nth_error_app2 by lia. now rewrite Nat.sub_diag.
    + now rewrite nth_error_app1 by lia.
  - destruct (In_nth_error _ _ Hy) as [j Hj].
    exists (List.length l1 + S j). split; [lia|]. split.
    + rewrite nth_error_app2 by lia. now rewrite Nat.sub_diag.
    + rewrite nth_error_app2 by lia.
      replace (List.length l1 + S j - List.length l1) with (S j) by lia.
      exact Hj.
Qed.

Lemma for_of_succeeds {A R : Type} (l : list A) (body : A -> outcome (option R)) :
  (forall x, In x l -> exists r, body x = Returns r) ->
  (exists x r, In x l /\ body x = Returns (Some r)) ->
  exists r, for_of l body = Returns (Some r).
Proof.
  induction l as [|x l IH]; intros Hall (y & r & Hy & Hr); [contradiction|].
  simpl. destruct (Hall x (or_introl eq_refl)) as [[r'|] Hx]; rewrite Hx; [eauto|].
  apply IH.
  - intros z Hz. apply Hall. now right.
  - destruct Hy as [->|Hy]; [congruence|eauto].
Qed.

Lemma findSolution_complete (fuel : nat) :
  forall frontier t,
    assembles frontier t -> near24 t = true ->
    List.length frontier <= fuel ->
    exists root, findSolution fuel frontier = Returns (Some root).
Proof.
  induction fuel as [|fuel IH]; intros F t Hasm Hnear Hlen.
  - apply assembles_nonempty in Hasm. lia.
  - destruct (Nat.eq_dec (List.length F) 1) as [H1|H1].
    + destruct F as [|n [|? ?]]; try discriminate.
      apply assembles_single in Hasm. subst t.
      rewrite findSolution_base, Hnear. eauto.
    + pose proof (assembles_nonempty _ _ Hasm) as Hpos.
      rewrite findSolution_step by assumption.
      apply for_of_succeeds.
      * intros c Hc. apply candidates_length in Hc.
        apply findSolution_total; lia.
      * destruct (assembles_first_step _ _ Hasm) as (x & y & p & rest & HP & Hp & Hsk & Hasm');
          [lia|].
        destruct (permutation_two_indices _ _ _ _ HP) as (i & j & Hij & Hi & Hj).
        pose proof (remaining_of_perm F i j x y Hij Hi Hj) as HPr.
        assert (Hrest : Permutation rest (remaining_of F i j)).
        { apply Permutation_cons_inv with (a := y).
          apply Permutation_cons_inv with (a := x).
          transitivity F; [now symmetry|assumption]. }
        set (c := (remaining_of F i j ++ [newNode x y p])%list).
        assert (Hc : In c (candidates F)).
        { apply candidates_spec. exists i, j, x, y, p. auto 10. }
        destruct (IH c t) as [root Hroot].
        -- eapply assembles_perm; [|exact Hasm'].
           now apply Permutation_app_tail.
        -- assumption.
        -- apply candidates_length in Hc. lia.
        -- exists c, root. auto.
Qed.

Section Completeness.

Variable Number_toString : float -> string.

Local Abbreviation leafNode := (leafNode Number_toString).
Local Abbreviation built := (built Number_toString).
Local Abbreviation solve24 := (solve24 Number_toString).
Local Abbreviation initialNodes := (initialNodes Number_toString).

Lemma built_assembles (t : ExprNode) :
  built t -> assembles (map leafNode (leaves t)) t.
Proof.
  induction 1 as [v|a b o Ha IHa Hb IHb Ho Hs]; [constructor|].
  rewrite leaves_newNode, map_app.
  eapply assembles_node; eauto.
Qed.

Lemma assembles_built (frontier : list ExprNode) (t : ExprNode) :
  assembles frontier t -> Forall built frontier ->
  built t /\ Permutation (flat_map leaves frontier) (leaves t).
Proof.
  induction 1 as [n|F F1 F2 a b o Ha IHa Hb IHb Ho Hs HP]; intros Hall.
  - inversion Hall; subst. simpl. rewrite app_nil_r. auto.
  - assert (Hall' : Forall built (F1 ++ F2)) by (eapply Permutation_Forall; eassumption).
    apply Forall_app in Hall'. destruct Hall' as [H1 H2].
    destruct (IHa H1) as [Hba HPa]. destruct (IHb H2) as [Hbb HPb].
    split; [now constructor|].
    rewrite leaves_newNode, (Permutation_flat_map leaves HP), flat_map_app.
    now apply Permutation_app.
Qed.

(** [solve24] reports a solvable input exactly when some tree the solver
    could build over all the numbers has a value within [EPSILON] of 24. *)
Lemma solve24_solvable_iff (numbers : list float) (r : SolverResult) :
  solve24 numbers = Returns r ->
  (solvable r = true <->
   exists t, built t /\ Permutation (leaves t) numbers /\ near24 t = true).
Proof.
  intros H. split.
  - intros Hs.
    destruct (solve24_solvable Number_toString numbers r H Hs)
      as (root & _ & Hnear & Hb & HP & _).
    exists root. split; [assumption|]. split; [now symmetry|assumption].
  - intros (t & Hb & HP & Hnear).
    assert (Hasm : assembles (initialNodes numbers) t).
    { eapply assembles_perm; [|apply built_assembles; exact Hb].
      unfold initialNodes. now apply Permutation_map. }
    destruct (findSolution_complete (S (List.length numbers)) _ t Hasm Hnear)
      as [root Hroot].
    { unfold initialNodes. rewrite length_map. lia. }
    unfold solve24 in H. rewrite Hroot in H. injection H as <-. reflexivity.
Qed.

End Completeness.

(** ** The size of the whole search *)

Lemma upto_first_length {A : Type} (p : A -> bool) (l : list A) :
  List.length (upto_first p l) <= List.length l.
Proof.
  induction l as [|x l IH]; simpl; [lia|].
  destruct (p x); simpl; lia.
Qed.

Lemma tests_bound_step (n : nat) :
  1 <= n -> tests_bound (S n) = S n * (n * 4) * tests_bound n.
Proof. destruct n; [lia|reflexivity]. Qed.

Lemma terminals_length (depth : nat) :
  forall nodes, List.length (terminals depth nodes) <= tests_bound (List.length nodes).
Proof.
  induction depth as [|d IH]; intros nodes; simpl; [lia|].
  destruct (Nat.eqb_spec (List.length nodes) 1) as [H1|H1].
  - rewrite H1. simpl. lia.
  - destruct (List.length nodes) as [|[|n]] eqn:Hlen; try lia.
    + destruct nodes; [reflexivity|discriminate].
    + rewrite tests_bound_step by lia.
      pose proof (candidates_count nodes) as Hcount. rewrite Hlen in Hcount.
      replace (S n - 0) with (S n) in Hcount by lia.
      assert (Hsum : List.length (flat_map (terminals d) (candidates nodes)) <=
                     List.length (candidates nodes) * tests_bound (S n)).
      { apply flat_map_length_le. intros c Hc.
        apply candidates_length in Hc.
        replace (S n) with (List.length c) by lia. apply IH. }
      replace (S (S n) - 1) with (S n) in Hcount by lia.
      nia.
Qed.

(** ** The characters of the displayed texts *)

Lemma has_char_app (c : ascii) (s t : string) :
  has_char c (s ++ t) = has_char c s || has_char c t.
Proof.
  induction s as [|x s IH]; simpl; [reflexivity|].
  now rewrite IH, orb_assoc.
Qed.

Lemma has_char_replaceAll_same (c : ascii) (by_ s : string) :
  has_char c by_ = false -> has_char c (replaceAll c by_ s) = false.
Proof.
  intros Hby. induction s as [|x s IH]; simpl; [reflexivity|].
  destruct (Ascii.eqb x c) eqn:E.
  - now rewrite has_char_app, Hby, IH.
  - simpl. now rewrite E, IH.
Qed.

Lemma has_char_replaceAll_other (c d : ascii) (by_ s : string) :
  has_char d by_ = false -> has_char d s = false ->
  has_char d (replaceAll c by_ s) = false.
Proof.
  intros Hby. induction s as [|x s IH]; simpl; [reflexivity|].
  intros H. apply orb_false_iff in H. destruct H as [Hx Hs].
  destruct (Ascii.eqb x c).
  - now rewrite has_char_app, Hby, IH.
  - simpl. now rewrite Hx, IH.
Qed.

Lemma prettySolution_signs (s : string) :
  has_char "*" (prettySolution s) = false /\ has_char "/" (prettySolution s) = false.
Proof.
  unfold prettySolution. split.
  - apply has_char_replaceAll_other; [reflexivity|].
    now apply has_char_replaceAll_same.
  - now apply has_char_replaceAll_same.
Qed.

Section MoreSolverProperties.

Variable Number_toString : float -> string.

Local Abbreviation leafNode := (leafNode Number_toString).
Local Abbreviation built := (built Number_toString).
Local Abbreviation findFirstOperation := (findFirstOperation Number_toString).
Local Abbreviation solve24 := (solve24 Number_toString).
Local Abbreviation initialNodes := (initialNodes Number_toString).

Lemma built_leaves_length (t : ExprNode) :
  built t ->
  1 <= List.length (leaves t) /\ isComposite t = (1 <? List.length (leaves t)).
Proof.
  induction 1 as [v|a b o Ha [IHa _] Hb [IHb _] Ho Hs]; [split; [simpl; lia|reflexivity]|].
  rewrite leaves_newNode, length_app. split; [lia|].
  symmetry. apply Nat.ltb_lt. lia.
Qed.

(** X1: [solve24] returns, and it reports the input solvable exactly when
    some expression tree over all the numbers, each used once, in any order
    and any grouping, built with [+], [-], [*], [/] and no division by a
    number within [EPSILON] of zero, has a value within [EPSILON] of 24. *)
Theorem solve24_sound_and_complete (numbers : list float) :
  exists r,
    solve24 numbers = Returns r /\
    (solvable r = true <->
     exists t, built t /\ Permutation (leaves t) numbers /\ near24 t = true).
Proof.
  destruct (solve24_total Number_toString numbers) as [r Hr].
  exists r. split; [assumption|].
  now apply solve24_solvable_iff.
Qed.

(** X2: whether [solve24] reports an input solvable does not depend on the
    order of the numbers. *)
Theorem solve24_solvable_order_independent
  (numbers numbers' : list float) (r r' : SolverResult) :
  Permutation numbers numbers' ->
  solve24 numbers = Returns r -> solve24 numbers' = Returns r' ->
  solvable r = solvable r'.
Proof.
  intros HP H H'.
  pose proof (solve24_solvable_iff Number_toString numbers r H) as Hiff.
  pose proof (solve24_solvable_iff Number_toString numbers' r' H') as Hiff'.
  destruct (solvable r) eqn:E, (solvable r') eqn:E'; try reflexivity.
  - destruct (proj1 Hiff eq_refl) as (t & Hb & HPt & Hn).
    symmetry. apply Hiff'. exists t. split; [assumption|].
    split; [now transitivity numbers|assumption].
  - destruct (proj1 Hiff' eq_refl) as (t & Hb & HPt & Hn).
    apply Hiff. exists t. split; [assumption|].
    split; [|assumption]. transitivity numbers'; [assumption|now symmetry].
Qed.

(** X3: a solvable input is not empty, and the hint of a solvable result is
    the empty string exactly when the input is a single number. *)
Theorem solve24_empty_hint_iff_single (numbers : list float) (r : SolverResult) :
  solve24 numbers = Returns r -> solvable r = true ->
  1 <= List.length numbers /\
  (firstStepHint r = Some ""%string <-> List.length numbers = 1).
Proof.
  intros H Hs.
  destruct (solve24_solvable Number_toString numbers r H Hs)
    as (root & _ & _ & Hb & HP & _ & Hhint).
  destruct (built_leaves_length root Hb) as [Hpos Hcomp].
  destruct (findFirstOperation_find Number_toString root Hb) as [Htruthy _].
  rewrite (Permutation_length HP). split; [assumption|].
  rewrite Hhint, Hcomp in *. split.
  - intros [= Hempty]. rewrite Hempty in Htruthy. simpl in Htruthy.
    symmetry in Htruthy. apply Nat.ltb_ge in Htruthy. lia.
  - intros H1. rewrite H1 in Htruthy. simpl in Htruthy.
    f_equal. now destruct (findFirstOperation root).
Qed.

(** X4: the solution string holds neither [*] nor [/]: every operator of the
    tree is shown by its sign; and neither does the hint, when the texts of
    the numbers hold none. *)
Theorem solve24_texts_hold_no_ascii_operator
  (numbers : list float) (r : SolverResult) (s : string) :
  solve24 numbers = Returns r -> solution r = Some s ->
  has_char "*" s = false /\ has_char "/" s = false /\
  (Forall (fun x => has_char "*" (Number_toString x) = false /\
                    has_char "/" (Number_toString x) = false) numbers ->
   forall hint, firstStepHint r = Some hint ->
   has_char "*" hint = false /\ has_char "/" hint = false).
Proof.
  intros H Hsol.
  assert (Hs : solvable r = true).
  { unfold solve24 in H.
    destruct (findSolution _ _) as [[root|]|e]; try discriminate;
      injection H as <-; [reflexivity|discriminate]. }
  destruct (solve24_solvable Number_toString numbers r H Hs)
    as (root & _ & _ & Hb & HP & Hsol' & Hhint).
  rewrite Hsol in Hsol'. injection Hsol' as ->.
  destruct (prettySolution_signs (str root)) as [H1 H2].
  split; [assumption|]. split; [assumption|].
  intros Hnum hint Hh. rewrite Hhint in Hh. injection Hh as <-.
  destruct (findFirstOperation_prints_leaves Number_toString root Hb)
    as [->|(x & y & o & Hx & Hy & Ho & ->)]; [split; reflexivity|].
  rewrite Forall_forall in Hnum.
  assert (Hx' : In x numbers) by (eapply Permutation_in; [symmetry; exact HP|exact Hx]).
  assert (Hy' : In y numbers) by (eapply Permutation_in; [symmetry; exact HP|exact Hy]).
  destruct (Hnum x Hx') as [Hx1 Hx2]. destruct (Hnum y Hy') as [Hy1 Hy2].
  rewrite !has_char_app, Hx1, Hx2, Hy1, Hy2.
  destruct (ops_cases o Ho) as [-> | [-> | [-> | ->]]]; split; reflexivity.
Qed.

End MoreSolverProperties.

(** X5: on a frontier of n nodes the search tests at most [tests_bound n]
    frontiers of size one for a value near 24; for the four numbers of a hand
    that is at most 48 * 24 * 8 = 9216. *)
Theorem findSolution_tests_at_most (nodes : list ExprNode) :
  List.length (fst (findSolution_log (S (List.length nodes)) nodes)) <=
    tests_bound (List.length nodes) /\
  tests_bound 4 = 48 * 24 * 8.
Proof.
  split; [|reflexivity].
  rewrite findSolution_log_terminals by lia. cbn [fst].
  etransitivity; [apply upto_first_length|apply terminals_length].
Qed.

(** * More about the dealer *)

Lemma NoDup_flat_map_blocks {A B : Type} (f : A -> list B) (l : list A) :
  NoDup l ->
  (forall x, In x l -> NoDup (f x)) ->
  (forall x y b, In x l -> In y l -> x <> y -> In b (f x) -> ~ In b (f y)) ->
  NoDup (flat_map f l).
Proof.
  induction 1 as [|x l Hx Hl IH]; intros Hblock Hdisj; simpl; [constructor|].
  apply NoDup_app.
  - apply Hblock. now left.
  - apply IH.
    + intros y Hy. apply Hblock. now right.
    + intros y z b Hy Hz. apply Hdisj; now right.
  - intros b Hb Hb'. apply in_flat_map in Hb'. destruct Hb' as [y [Hy Hby]].
    apply (Hdisj x y b); [now left|now right| |assumption|assumption].
    intros ->. contradiction.
Qed.

Lemma NoDup_firstn {A : Type} (n : nat) (l : list A) : NoDup l -> NoDup (firstn n l).
Proof.
  intros H. rewrite <- (firstn_skipn n l) in H.
  now apply NoDup_app_remove_r in H.
Qed.

Lemma In_firstn {A : Type} (n : nat) (l : list A) (x : A) :
  In x (firstn n l) -> In x l.
Proof.
  intros H. rewrite <- (firstn_skipn n l). apply in_or_app. now left.
Qed.

(** The numbers of the card values are the integers themselves. *)
Lemma F2Z_number_of_nat (i : nat) : i <= 13 -> F2Z (number_of_nat i) = Z.of_nat i.
Proof.
  intros H.
  assert (E : In i (seq 0 14)) by (apply in_seq; lia).
  simpl in E.
  repeat (destruct E as [<-|E]; [reflexivity|]). contradiction.
Qed.

Lemma number_of_nat_inj (i j : nat) :
  i <= 13 -> j <= 13 -> number_of_nat i = number_of_nat j -> i = j.
Proof.
  intros Hi Hj H. apply (f_equal F2Z) in H.
  rewrite !F2Z_number_of_nat in H by assumption. lia.
Qed.

(** No card value is within [EPSILON] of 24. *)
Lemma number_of_nat_not_24 (i : nat) :
  i <= 13 -> (abs (number_of_nat i - 24) <? EPSILON)%float = false.
Proof.
  intros H.
  assert (E : In i (seq 0 14)) by (apply in_seq; lia).
  simpl in E.
  repeat (destruct E as [<-|E]; [reflexivity|]). contradiction.
Qed.

Lemma slice0_is_firstn {A : Type} (count : Z) (l : list A) :
  exists n, slice0 count l = firstn n l.
Proof. unfold slice0. eauto. Qed.

Lemma solve24_single (Number_toString : float -> string) (x : float) :
  solve24 Number_toString [x] =
  Returns (if (abs (x - 24) <? EPSILON)%float
           then MkSolverResult true (Some (prettySolution (Number_toString x)))
                  (Some ""%string)
           else MkSolverResult false None None).
Proof.
  unfold solve24, initialNodes. cbn [List.length map].
  rewrite findSolution_base. unfold near24, leafNode. cbn [val].
  destruct (abs (x - 24) <? EPSILON)%float; reflexivity.
Qed.

Section MoreDealerFacts.

Variable Number_toString : float -> string.
Variable Math_random : nat -> float.

Local Abbreviation solve24 := (solve24 Number_toString).
Local Abbreviation newCard := (newCard Number_toString).
Local Abbreviation generateDeck := (generateDeck Number_toString Math_random).
Local Abbreviation shuffleDeck := (shuffleDeck Math_random).
Local Abbreviation deck_from := (deck_from Number_toString Math_random).
Local Abbreviation attempt := (attempt Number_toString Math_random).
Local Abbreviation fallback := (fallback Number_toString Math_random).
Local Abbreviation drawCards := (drawCards Number_toString Math_random).
Local Abbreviation failed_attempts := (failed_attempts Number_toString Math_random).
Local Abbreviation unit_random := (unit_random Math_random).

Lemma maxVal_bounds (difficulty : Difficulty) : 10 <= maxVal difficulty <= 13.
Proof. destruct difficulty; simpl; lia. Qed.

Lemma deck_from_In (difficulty : Difficulty) (k : nat) (c : PlayingCard) :
  In c (deck_from difficulty k) ->
  exists i s r, 1 <= i <= maxVal difficulty /\ c = newCard i s r.
Proof.
  unfold deck_from. intros H. apply in_flat_map in H.
  destruct H as [i [Hi Hc]]. apply in_seq in Hi.
  simpl in Hc.
  destruct Hc as [<-|[<-|[<-|[<-|[]]]]]; do 3 eexists; (split; [|reflexivity]); lia.
Qed.

Lemma deck_from_first (difficulty : Difficulty) (k : nat) :
  firstn 1 (deck_from difficulty k) = [newCard 1 Hearts (Math_random k)].
Proof.
  unfold deck_from. destruct difficulty; simpl; now rewrite Nat.add_0_r.
Qed.

Lemma deck_from_NoDup (difficulty : Difficulty) (k : nat) :
  NoDup (map (fun c => (value c, suit c)) (deck_from difficulty k)).
Proof.
  rewrite deck_from_cards.
  pose proof (maxVal_bounds difficulty) as Hmax.
  apply NoDup_flat_map_blocks.
  - apply seq_NoDup.
  - intros i _. simpl.
    repeat (constructor; [simpl; intuition congruence|]). constructor.
  - intros i j b Hi Hj Hij Hbi Hbj.
    apply in_seq in Hi, Hj.
    apply in_map_iff in Hbi, Hbj.
    destruct Hbi as [s [<- _]]. destruct Hbj as [s' [E _]].
    injection E as E _.
    apply Hij. symmetry. apply number_of_nat_inj; [lia|lia|assumption].
Qed.

Lemma deck_from_cards_wf (difficulty : Difficulty) (k : nat) :
  Forall (card_of_deck difficulty) (deck_from difficulty k).
Proof.
  apply Forall_forall. intros c Hc.
  destruct (deck_from_In difficulty k c Hc) as (i & s & r & Hi & ->).
  exists i. split; [assumption|]. split; [reflexivity|].
  destruct s; reflexivity.
Qed.

(** The hand [drawCards] returns is a prefix of a rearranged fresh deck. *)
Lemma drawCards_from_deck (count : Z) (difficulty : Difficulty) (k : nat) :
  unit_random ->
  exists hand k' k0 arranged,
    drawCards count difficulty k = Returns (hand, k') /\
    Permutation (deck_from difficulty k0) arranged /\
    hand = slice0 count arranged.
Proof.
  intros Hrand.
  destruct (drawLoop_spec Number_toString Math_random Hrand count difficulty
              100 101 0 k) as (hand & k' & Hdraw & Hcases); [reflexivity|lia|].
  exists hand, k'.
  destruct Hcases as [(m & k0 & res & Hm & Hfail & Hatt & Hs)|(k0 & Hfail & Hfb)].
  - destruct (attempt_spec Number_toString Math_random Hrand count difficulty k0)
      as (shuffled & result & HP & Hres & Hatt').
    rewrite Hatt in Hatt'. injection Hatt' as -> _ _.
    exists k0, shuffled. auto.
  - rewrite fallback_spec in Hfb. injection Hfb as <- _.
    exists k0, (deck_from difficulty k0). auto.
Qed.

Lemma failed_attempts_state (count : Z) (difficulty : Difficulty) (n k k0 : nat) :
  unit_random ->
  failed_attempts count difficulty n k k0 ->
  k0 = k + n * (8 * maxVal difficulty - 1).
Proof.
  intros Hrand. induction 1 as [k|n k k1 k2 hand result Hatt Hs Hfail IH]; [lia|].
  destruct (attempt_spec Number_toString Math_random Hrand count difficulty k)
    as (shuffled & result' & _ & _ & Hatt').
  rewrite Hatt in Hatt'. injection Hatt' as _ _ ->.
  pose proof (maxVal_bounds difficulty). lia.
Qed.

Lemma small_hand_unsolvable (count : Z) (difficulty : Difficulty) (k0 : nat)
  (arranged : list PlayingCard) (r : SolverResult) :
  (count = 0 \/ count = 1)%Z ->
  Permutation (deck_from difficulty k0) arranged ->
  solve24 (map value (slice0 count arranged)) = Returns r ->
  solvable r = false.
Proof.
  intros Hcount HP.
  assert (Hlen : List.length arranged = 4 * maxVal difficulty).
  { rewrite <- (Permutation_length HP). apply deck_from_length. }
  pose proof (maxVal_bounds difficulty) as Hmax.
  destruct arranged as [|c arranged]; [simpl in Hlen; lia|].
  assert (Hc : card_of_deck difficulty c).
  { pose proof (deck_from_cards_wf difficulty k0) as Hall.
    rewrite Forall_forall in Hall. apply Hall.
    eapply Permutation_in; [symmetry; exact HP|now left]. }
  destruct Hc as (i & Hi & Hv & _).
  destruct Hcount as [-> | ->].
  - rewrite slice0_firstn by lia. simpl.
    intros H. vm_compute in H. injection H as <-. reflexivity.
  - rewrite slice0_firstn by lia. simpl. rewrite Hv.
    rewrite solve24_single, number_of_nat_not_24 by lia.
    intros H. injection H as <-. reflexivity.
Qed.

(** X6: [generateDeck] always returns, after exactly four calls of
    [Math.random] per value; the deck has 40 cards for Easy and 52 for Hard;
    no two of its cards share value and suit; every card has a value from 1
    to the maximum and is red exactly when its suit is hearts or diamonds. *)
Theorem generateDeck_full_deck (difficulty : Difficulty) (k : nat) :
  exists deck,
    generateDeck difficulty k = Returns (deck, k + 4 * maxVal difficulty) /\
    List.length deck = match difficulty with Easy => 40 | Hard => 52 end /\
    NoDup (map (fun c => (value c, suit c)) deck) /\
    Forall (card_of_deck difficulty) deck.
Proof.
  exists (deck_from difficulty k).
  split; [apply generateDeck_spec|].
  split; [rewrite deck_from_length; destruct difficulty; reflexivity|].
  split; [apply deck_from_NoDup|apply deck_from_cards_wf].
Qed.

(** X7: for a deck of at most 52 cards and a source whose numbers floor to
    indices, [shuffleDeck] returns a rearrangement of the deck, with the same
    cards and the same number of them, after one call of [Math.random] per
    card but the first; a deck of one card or none comes back as it is. *)
Theorem shuffleDeck_rearranges (deck : list PlayingCard) (k : nat) :
  unit_random -> List.length deck <= 52 ->
  exists shuffled,
    shuffleDeck deck k = Returns (shuffled, k + (List.length deck - 1)) /\
    Permutation deck shuffled /\
    List.length shuffled = List.length deck /\
    (List.length deck <= 1 -> shuffled = deck).
Proof.
  intros Hrand Hlen.
  destruct (shuffleFrom_spec Math_random Hrand (List.length deck - 1) deck k)
    as [shuffled [Hsh HP]]; [lia|assumption|].
  exists shuffled. split; [exact Hsh|]. split; [assumption|].
  split; [symmetry; now apply Permutation_length|].
  intros Hsmall. destruct deck as [|c [|? ?]]; simpl in Hsmall; try lia.
  - apply Permutation_nil in HP. assumption.
  - apply Permutation_length_1_inv in HP. assumption.
Qed.

(** X8: with a source whose numbers floor to indices, [drawCards] returns a
    hand whose cards are cards of a fresh deck: values from 1 to the maximum
    of the difficulty, colours following the suits, and no two cards sharing
    value and suit; for a count that is not negative the hand has that many
    cards, or the whole deck when the count exceeds it. *)
Theorem drawCards_hand_of_distinct_cards
  (count : Z) (difficulty : Difficulty) (k : nat) :
  unit_random ->
  exists hand k',
    drawCards count difficulty k = Returns (hand, k') /\
    NoDup (map (fun c => (value c, suit c)) hand) /\
    Forall (card_of_deck difficulty) hand /\
    ((0 <= count)%Z ->
     List.length hand = Nat.min (Z.to_nat count) (4 * maxVal difficulty)).
Proof.
  intros Hrand.
  destruct (drawCards_from_deck count difficulty k Hrand)
    as (hand & k' & k0 & arranged & Hdraw & HP & ->).
  exists (slice0 count arranged), k'. split; [exact Hdraw|].
  destruct (slice0_is_firstn count arranged) as [n Hn].
  split; [|split].
  - rewrite Hn, <- firstn_map. apply NoDup_firstn.
    eapply Permutation_NoDup; [apply Permutation_map; exact HP|].
    apply deck_from_NoDup.
  - rewrite Hn. apply Forall_forall. intros c Hc. apply In_firstn in Hc.
    pose proof (deck_from_cards_wf difficulty k0) as Hall.
    rewrite Forall_forall in Hall. apply Hall.
    eapply Permutation_in; [symmetry; exact HP|exact Hc].
  - intros Hcount. rewrite slice0_firstn by assumption.
    rewrite length_firstn, <- (Permutation_length HP), deck_from_length.
    reflexivity.
Qed.

(** X9: asked for no card or for one card, [drawCards] never finds a
    solvable hand: it makes all 100 attempts and returns the fallback, which
    is empty or the first card of a fresh deck, the 1 of hearts. *)
Theorem drawCards_fewer_than_two_cards
  (count : Z) (difficulty : Difficulty) (k : nat) :
  unit_random -> (count = 0 \/ count = 1)%Z ->
  let k0 := k + 100 * (8 * maxVal difficulty - 1) in
  failed_attempts count difficulty 100 k k0 /\
  drawCards count difficulty k =
    Returns (firstn (Z.to_nat count) [newCard 1 Hearts (Math_random k0)],
             k0 + 4 * maxVal difficulty).
Proof.
  intros Hrand Hcount k0.
  destruct (drawLoop_spec Number_toString Math_random Hrand count difficulty
              100 101 0 k) as (hand & k' & Hdraw & Hcases); [reflexivity|lia|].
  destruct Hcases as [(m & k1 & res & Hm & Hfail & Hatt & Hs)|(k1 & Hfail & Hfb)].
  - exfalso.
    destruct (attempt_spec Number_toString Math_random Hrand count difficulty k1)
      as (shuffled & result & HP & Hres & Hatt').
    rewrite Hatt in Hatt'. injection Hatt' as _ -> _.
    rewrite (small_hand_unsolvable count difficulty k1 shuffled result Hcount HP Hres) in Hs.
    discriminate.
  - pose proof (failed_attempts_state count difficulty 100 k k1 Hrand Hfail) as Hk1.
    fold k0 in Hk1. subst k1. split; [assumption|].
    rewrite fallback_spec in Hfb.
    injection Hfb as <- <-.
    change (drawCards count difficulty k) with
      (drawLoop Number_toString Math_random 101 0 count difficulty k).
    rewrite Hdraw. f_equal. f_equal.
    rewrite slice0_firstn by (destruct Hcount; lia).
    destruct Hcount as [-> | ->]; [reflexivity|].
    apply deck_from_first.
Qed.

End MoreDealerFacts.

(** * evaluateExpression *)

Lemma space2_not_kept (a b : ascii) : space2 a b = true -> kept_ascii a = false.
Proof.
  unfold space2. intros H. apply andb_true_iff in H. destruct H as [Ha _].
  apply N.eqb_eq in Ha.
  rewrite <- (ascii_N_embedding a), Ha. reflexivity.
Qed.

Lemma space3_lead (a b c : ascii) :
  space3 a b c = true ->
  (N_of_ascii a = 225 \/ N_of_ascii a = 226 \/ N_of_ascii a = 227 \/ N_of_ascii a = 239)%N /\
  (128 <= N_of_ascii b)%N /\ (128 <= N_of_ascii c)%N.
Proof.
  unfold space3. cbv zeta.
  rewrite !orb_true_iff, !andb_true_iff, !orb_true_iff, !andb_true_iff.
  rewrite !N.eqb_eq, !N.leb_le. lia.
Qed.

Lemma space3_not_kept (a b c : ascii) :
  space3 a b c = true -> kept_ascii a = false /\ space2 a b = false.
Proof.
  intros H. destruct (space3_lead a b c H) as [Ha _].
  split.
  - rewrite <- (ascii_N_embedding a).
    destruct Ha as [-> | [-> | [-> | ->]]]; reflexivity.
  - unfold space2. apply andb_false_iff. left. apply N.eqb_neq. lia.
Qed.

Lemma kept_ascii_below_128 (a : ascii) : kept_ascii a = true -> (N_of_ascii a < 128)%N.
Proof.
  destruct a as [[] [] [] [] [] [] [] []]; simpl; intros H;
    try discriminate; vm_compute; reflexivity.
Qed.

Lemma sanitize_class_bounded (n : nat) :
  forall s, String.length s <= n -> class_text (sanitize s).
Proof.
  induction n as [|n IH]; intros s Hlen.
  - destruct s; [constructor|simpl in Hlen; lia].
  - destruct s as [|a rest]; [constructor|]. simpl in Hlen. simpl.
    destruct (kept_ascii a) eqn:Ka.
    + constructor; [assumption|]. apply IH. lia.
    + destruct rest as [|b rest2]; [constructor|]. simpl in Hlen.
      destruct (space2 a b) eqn:S2.
      * apply class_space2; [assumption|]. apply IH. lia.
      * destruct rest2 as [|c rest3].
        -- apply (IH (String b EmptyString)). simpl. lia.
        -- simpl in Hlen. destruct (space3 a b c) eqn:S3.
           ++ apply class_space3; [assumption|]. apply IH. lia.
           ++ apply (IH (String b (String c rest3))). simpl. lia.
Qed.

Lemma sanitize_class (s : string) : class_text (sanitize s).
Proof. apply (sanitize_class_bounded (String.length s)). lia. Qed.

Lemma sanitize_fixes_class (s : string) : class_text s -> sanitize s = s.
Proof.
  induction 1 as [|a s Ka Hs IH|a b s S2 Hs IH|a b c s S3 Hs IH].
  - reflexivity.
  - simpl. now rewrite Ka, IH.
  - simpl. now rewrite (space2_not_kept a b S2), S2, IH.
  - destruct (space3_not_kept a b c S3) as [Ka S2].
    simpl. now rewrite Ka, S2, S3, IH.
Qed.

Lemma class_text_chars (s : string) :
  class_text s ->
  forall c, has_char c s = true ->
  kept_ascii c = true \/ (128 <= N_of_ascii c)%N.
Proof.
  induction 1 as [|a s Ka Hs IH|a b s S2 Hs IH|a b c s S3 Hs IH]; intros x Hx;
    simpl in Hx.
  - discriminate.
  - apply orb_true_iff in Hx. destruct Hx as [Hx|Hx]; [|now apply IH].
    apply Ascii.eqb_eq in Hx. subst. now left.
  - unfold space2 in S2. apply andb_true_iff in S2. destruct S2 as [Ha Hb].
    apply N.eqb_eq in Ha, Hb.
    rewrite !orb_true_iff in Hx. destruct Hx as [Hx|[Hx|Hx]]; [| |now apply IH];
      apply Ascii.eqb_eq in Hx; subst; right; lia.
  - destruct (space3_lead a b c S3) as (Ha & Hb & Hc).
    rewrite !orb_true_iff in Hx.
    destruct Hx as [Hx|[Hx|[Hx|Hx]]]; [| | |now apply IH];
      apply Ascii.eqb_eq in Hx; subst; right; lia.
Qed.

(** X10: the sanitizer of [evaluateExpression] lets through nothing but the
    characters of the class [0-9+\-*/().\s]: every ASCII character of its
    result is a digit, one of [+ - * / ( ) .] or white space, so no letter,
    quote, bracket or semicolon survives; a text of the class is left as it
    is, and sanitizing twice is sanitizing once. *)
Theorem sanitize_keeps_only_the_class (expression : string) :
  class_text (sanitize expression) /\
  (forall c, has_char c (sanitize expression) = true ->
             (N_of_ascii c < 128)%N -> kept_ascii c = true) /\
  (class_text expression -> sanitize expression = expression) /\
  sanitize (sanitize expression) = sanitize expression.
Proof.
  pose proof (sanitize_class expression) as Hclass.
  split; [assumption|]. split; [|split].
  - intros c Hc Hlow.
    destruct (class_text_chars _ Hclass c Hc) as [H|H]; [assumption|lia].
  - apply sanitize_fixes_class.
  - now apply sanitize_fixes_class.
Qed.

Section EvaluateProperties.

Variable JSValue : Type.
Variable Function_call : string -> option JSValue.
Variable ToNumber : JSValue -> option float.

Local Abbreviation evaluateExpression :=
  (evaluateExpression JSValue Function_call ToNumber).

Lemma evaluateExpression_unfold (expression : string) :
  evaluateExpression expression =
  if truthy (sanitize expression) then
    match Function_call ("return " ++ sanitize expression) with
    | Some result =>
        match ToNumber result with
        | Some x =>
            if negb (isFinite x) || PrimFloat.is_nan x then None else Some result
        | None => None
        end
    | None => None
    end
  else None.
Proof. reflexivity. Qed.


End EvaluateProperties.

(** * The solver against exact arithmetic *)

(** ** Quotients of machine integers *)

Lemma fits_spec (x : Quotient.int) :
  Quotient.fits x = true -> (Z.abs (Sint63.to_Z x) < 2 ^ 20)%Z.
Proof.
  unfold Quotient.fits. intros H. apply andb_true_iff in H. destruct H as [H1 H2].
  destruct (Sint63.ltbP (Uint63.opp Quotient.limit) x) as [L1|]; [|discriminate].
  destruct (Sint63.ltbP x Quotient.limit) as [L2|]; [|discriminate].
  change (Sint63.to_Z (Uint63.opp Quotient.limit)) with (-1048576)%Z in L1.
  change (Sint63.to_Z Quotient.limit) with 1048576%Z in L2.
  change (2 ^ 20)%Z with 1048576%Z.
  revert L1 L2. generalize (Sint63.to_Z x). intros z L1 L2. lia.
Qed.

Lemma to_Z_mul_small (x y : Quotient.int) :
  (Z.abs (Sint63.to_Z x) < 2 ^ 20)%Z -> (Z.abs (Sint63.to_Z y) < 2 ^ 20)%Z ->
  Sint63.to_Z (Uint63.mul x y) = (Sint63.to_Z x * Sint63.to_Z y)%Z /\
  (Z.abs (Sint63.to_Z x * Sint63.to_Z y) < 2 ^ 40)%Z.
Proof.
  intros Hx Hy.
  assert (B : (Z.abs (Sint63.to_Z x * Sint63.to_Z y) < 2 ^ 40)%Z).
  { rewrite Z.abs_mul. change (2 ^ 40)%Z with (2 ^ 20 * 2 ^ 20)%Z.
    apply Z.mul_lt_mono_nonneg; auto using Z.abs_nonneg. }
  split; [|exact B].
  apply Sint63.to_Z_mul. rewrite Sint63.to_Z_min, Sint63.to_Z_max.
  change (2 ^ 40)%Z with 1099511627776%Z in B.
  change Uint63.wB with 9223372036854775808%Z.
  change (9223372036854775808 / 2)%Z with 4611686018427387904%Z.
  clear Hx Hy. revert B. generalize (Sint63.to_Z x * Sint63.to_Z y)%Z. intros p B. lia.
Qed.

Lemma to_Z_add_small (x y : Quotient.int) :
  (Z.abs (Sint63.to_Z x) < 2 ^ 40)%Z -> (Z.abs (Sint63.to_Z y) < 2 ^ 40)%Z ->
  Sint63.to_Z (Uint63.add x y) = (Sint63.to_Z x + Sint63.to_Z y)%Z.
Proof.
  intros Hx Hy.
  apply Sint63.to_Z_add. rewrite Sint63.to_Z_min, Sint63.to_Z_max.
  change (2 ^ 40)%Z with 1099511627776%Z in Hx, Hy.
  change Uint63.wB with 9223372036854775808%Z.
  change (9223372036854775808 / 2)%Z with 4611686018427387904%Z.
  revert Hx Hy. generalize (Sint63.to_Z x) (Sint63.to_Z y). intros p q Hp Hq. lia.
Qed.

Lemma to_Z_sub_small (x y : Quotient.int) :
  (Z.abs (Sint63.to_Z x) < 2 ^ 40)%Z -> (Z.abs (Sint63.to_Z y) < 2 ^ 40)%Z ->
  Sint63.to_Z (Uint63.sub x y) = (Sint63.to_Z x - Sint63.to_Z y)%Z.
Proof.
  intros Hx Hy.
  apply Sint63.to_Z_sub. rewrite Sint63.to_Z_min, Sint63.to_Z_max.
  change (2 ^ 40)%Z with 1099511627776%Z in Hx, Hy.
  change Uint63.wB with 9223372036854775808%Z.
  change (9223372036854775808 / 2)%Z with 4611686018427387904%Z.
  revert Hx Hy. generalize (Sint63.to_Z x) (Sint63.to_Z y). intros p q Hp Hq. lia.
Qed.

Lemma to_Z_is_zero (x : Quotient.int) :
  Uint63.eqb x Quotient.zero = (Sint63.to_Z x =? 0)%Z.
Proof.
  destruct (Sint63.eqbP x Quotient.zero) as [E|E]; unfold Quotient.zero in *;
    rewrite Sint63.to_Z_0 in E;
    symmetry; [now apply Z.eqb_eq|now apply Z.eqb_neq].
Qed.

(** The integers a combination computes are those of the usual rules for
    fractions, as long as the operands fit. *)
Lemma combine_quotients_Z (o : Infix.binop) (x y : Quotient.quotient) :
  Quotient.both_fit x = true -> Quotient.both_fit y = true ->
  let N1 := Sint63.to_Z (fst x) in
  let D1 := Sint63.to_Z (snd x) in
  let N2 := Sint63.to_Z (fst y) in
  let D2 := Sint63.to_Z (snd y) in
  let r := Quotient.combine_quotients o x y in
  (Sint63.to_Z (fst r), Sint63.to_Z (snd r)) =
    match o with
    | Infix.Add => (N1 * D2 + N2 * D1, D1 * D2)
    | Infix.Sub => (N1 * D2 - N2 * D1, D1 * D2)
    | Infix.Mul => (N1 * N2, D1 * D2)
    | Infix.Div => if D2 =? 0 then (0, 0) else (N1 * D2, D1 * N2)
    end%Z /\
  (Z.abs (Sint63.to_Z (fst r)) < 2 ^ 42)%Z /\
  (Z.abs (Sint63.to_Z (snd r)) < 2 ^ 42)%Z.
Proof.
  destruct x as [n1 d1], y as [n2 d2]. unfold Quotient.both_fit. cbn [fst snd].
  intros Hx Hy.
  apply andb_true_iff in Hx, Hy. destruct Hx as [Hn1 Hd1], Hy as [Hn2 Hd2].
  apply fits_spec in Hn1, Hd1, Hn2, Hd2.
  destruct (to_Z_mul_small n1 d2 Hn1 Hd2) as [E12 B12].
  destruct (to_Z_mul_small n2 d1 Hn2 Hd1) as [E21 B21].
  destruct (to_Z_mul_small d1 d2 Hd1 Hd2) as [Ed Bd].
  destruct (to_Z_mul_small n1 n2 Hn1 Hn2) as [En Bn].
  destruct (to_Z_mul_small d1 n2 Hd1 Hn2) as [Edn Bdn].
  assert (W : (2 ^ 40 = 1099511627776 /\ 2 ^ 42 = 4398046511104)%Z)
    by (split; reflexivity).
  destruct W as [W40 W42].
  destruct o; cbn [Quotient.combine_quotients fst snd].
  - rewrite to_Z_add_small by (rewrite ?E12, ?E21; assumption).
    rewrite E12, E21, Ed. split; [reflexivity|]. rewrite W40 in *. rewrite W42. lia.
  - rewrite to_Z_sub_small by (rewrite ?E12, ?E21; assumption).
    rewrite E12, E21, Ed. split; [reflexivity|]. rewrite W40 in *. rewrite W42. lia.
  - rewrite En, Ed. split; [reflexivity|]. rewrite W40 in *. rewrite W42. lia.
  - rewrite to_Z_is_zero. destruct (Sint63.to_Z d2 =? 0)%Z; cbn [fst snd].
    + unfold Quotient.zero. rewrite Sint63.to_Z_0. split; [reflexivity|]. rewrite W42. lia.
    + rewrite E12, Edn. split; [reflexivity|]. rewrite W40 in *. rewrite W42. lia.
Qed.

(** ** Every expression of card values is enumerated *)

Lemma card_table_eq :
  Quotient.card_table =
  map (fun z => (z, (Z2F z, (Uint63.of_Z z, Quotient.one)))) card_values.
Proof. vm_compute. reflexivity. Qed.

Lemma esize_pos (e : Infix.expr) : 0 < esize e.
Proof. induction e; simpl; lia. Qed.

Lemma value_Bin (o : Infix.binop) (l r : Infix.expr) :
  Infix.value (Infix.Bin o l r) =
  func (operation_of o) (Infix.value l) (Infix.value r).
Proof. destruct o; reflexivity. Qed.

Lemma reaches_all1 : Quotient.reaches Quotient.all1 1.
Proof.
  intros k Hk [z|o l r] Hsize Hsmall; simpl in *.
  - unfold Quotient.all1 in Hk. rewrite forallb_forall in Hk.
    apply (Hk (z, (Z2F z, (Uint63.of_Z z, Quotient.one)))).
    rewrite card_table_eq.
    apply (in_map (fun z => (z, (Z2F z, (Uint63.of_Z z, Quotient.one))))).
    now inversion Hsmall.
  - pose proof (esize_pos l). pose proof (esize_pos r). lia.
Qed.

Lemma all_pairs_sound (allL allR : Quotient.test -> bool) (a b : nat) :
  Quotient.reaches allL a -> Quotient.reaches allR b ->
  forall k, Quotient.all_pairs allL allR k = true ->
  forall o l r,
    esize l = a -> esize r = b ->
    Forall (fun z => In z card_values) (operands l) ->
    Forall (fun z => In z card_values) (operands r) ->
    k (Infix.Bin o l r) (Infix.value (Infix.Bin o l r))
      (Quotient.quotient_of (Infix.Bin o l r)) = true.
Proof.
  intros HL HR k Hk o l r Hl Hr Hsl Hsr.
  unfold Quotient.all_pairs in Hk. rewrite forallb_forall in Hk.
  assert (Ho : In o Quotient.operators) by (destruct o; simpl; tauto).
  specialize (Hk o Ho).
  specialize (HL _ Hk l Hl Hsl). cbv beta in HL.
  rewrite value_Bin. exact (HR _ HL r Hr Hsr).
Qed.

Lemma reaches_all2 : Quotient.reaches Quotient.all2 2.
Proof.
  intros k Hk [z|o l r] Hsize Hsmall; simpl in *; [lia|].
  apply Forall_app in Hsmall. destruct Hsmall as [Hl Hr].
  pose proof (esize_pos l). pose proof (esize_pos r).
  apply (all_pairs_sound _ _ 1 1 reaches_all1 reaches_all1 k Hk); auto; lia.
Qed.

Lemma reaches_all3 : Quotient.reaches Quotient.all3 3.
Proof.
  intros k Hk [z|o l r] Hsize Hsmall; simpl in *; [lia|].
  apply Forall_app in Hsmall. destruct Hsmall as [Hl Hr].
  pose proof (esize_pos l). pose proof (esize_pos r).
  unfold Quotient.all3 in Hk. apply andb_true_iff in Hk. destruct Hk as [H21 H12].
  destruct (Nat.eq_dec (esize l) 1) as [E|E].
  - apply (all_pairs_sound _ _ 1 2 reaches_all1 reaches_all2 k H12); auto; lia.
  - apply (all_pairs_sound _ _ 2 1 reaches_all2 reaches_all1 k H21); auto; lia.
Qed.

Lemma reaches_all4 : Quotient.reaches Quotient.all4 4.
Proof.
  intros k Hk [z|o l r] Hsize Hsmall; simpl in *; [lia|].
  apply Forall_app in Hsmall. destruct Hsmall as [Hl Hr].
  pose proof (esize_pos l). pose proof (esize_pos r).
  unfold Quotient.all4 in Hk. apply andb_true_iff in Hk. destruct Hk as [Hk H13].
  apply andb_true_iff in Hk. destruct Hk as [H31 H22].
  destruct (Nat.eq_dec (esize l) 1) as [E1|E1];
    [|destruct (Nat.eq_dec (esize l) 2) as [E2|E2]].
  - apply (all_pairs_sound _ _ 1 3 reaches_all1 reaches_all3 k H13); auto; lia.
  - apply (all_pairs_sound _ _ 2 2 reaches_all2 reaches_all2 k H22); auto; lia.
  - apply (all_pairs_sound _ _ 3 1 reaches_all3 reaches_all1 k H31); auto; lia.
Qed.

(** ** The checks, by computation *)

Lemma all1_in_range : Quotient.all1 Quotient.in_range = true.
Proof. vm_compute. reflexivity. Qed.

Lemma all2_in_range : Quotient.all2 Quotient.in_range = true.
Proof. vm_compute. reflexivity. Qed.

Lemma all3_in_range : Quotient.all3 Quotient.in_range = true.
Proof. vm_compute. reflexivity. Qed.

Lemma all1_agrees : Quotient.all1 Quotient.agrees = true.
Proof. vm_compute. reflexivity. Qed.

Lemma all2_agrees : Quotient.all2 Quotient.agrees = true.
Proof. vm_compute. reflexivity. Qed.

Lemma all3_agrees : Quotient.all3 Quotient.agrees = true.
Proof. vm_compute. reflexivity. Qed.

(** Over the 9,139,520 expressions of four card values. *)
Lemma all4_agrees : Quotient.all4 Quotient.agrees = true.
Proof. vm_compute. reflexivity. Qed.

Lemma small_in_range (e : Infix.expr) :
  esize e <= 3 -> Forall (fun z => In z card_values) (operands e) ->
  Quotient.both_fit (Quotient.quotient_of e) = true.
Proof.
  intros Hsize Hsmall. pose proof (esize_pos e) as Hpos.
  destruct (Nat.eq_dec (esize e) 1) as [E1|E1];
    [|destruct (Nat.eq_dec (esize e) 2) as [E2|E2]].
  - exact (reaches_all1 _ all1_in_range e E1 Hsmall).
  - exact (reaches_all2 _ all2_in_range e E2 Hsmall).
  - assert (E3 : esize e = 3) by lia.
    exact (reaches_all3 _ all3_in_range e E3 Hsmall).
Qed.

Lemma small_agrees (e : Infix.expr) :
  esize e <= 4 -> Forall (fun z => In z card_values) (operands e) ->
  Quotient.agrees e (Infix.value e) (Quotient.quotient_of e) = true.
Proof.
  intros Hsize Hsmall. pose proof (esize_pos e) as Hpos.
  destruct (Nat.eq_dec (esize e) 1) as [E1|E1];
    [|destruct (Nat.eq_dec (esize e) 2) as [E2|E2];
      [|destruct (Nat.eq_dec (esize e) 3) as [E3|E3]]].
  - exact (reaches_all1 _ all1_agrees e E1 Hsmall).
  - exact (reaches_all2 _ all2_agrees e E2 Hsmall).
  - exact (reaches_all3 _ all3_agrees e E3 Hsmall).
  - assert (E4 : esize e = 4) by lia.
    exact (reaches_all4 _ all4_agrees e E4 Hsmall).
Qed.

(** ** The quotient is the exact value *)

Lemma card_value_to_Z (z : Z) :
  In z card_values -> Sint63.to_Z (Uint63.of_Z z) = z /\ (1 <= z <= 13)%Z.
Proof.
  intros H. vm_compute in H.
  repeat (destruct H as [<-|H]; [split; [reflexivity|lia]|]).
  contradiction.
Qed.

Lemma inject_Z_zero (z : Z) : Qeq (inject_Z z) 0 <-> z = 0%Z.
Proof. unfold Qeq. simpl. lia. Qed.

Lemma stands_for_zero (y : Q) (N D : Z) :
  Quotient.stands_for (Some y) N D -> (Qeq y 0 <-> N = 0%Z).
Proof.
  intros [HD H]. split.
  - intros E. rewrite E, Qmult_0_l in H. symmetry in H.
    exact (proj1 (inject_Z_zero N) H).
  - intros ->. apply Qmult_integral in H. destruct H as [H|H]; [exact H|].
    exfalso. exact (HD (proj1 (inject_Z_zero D) H)).
Qed.

Lemma stands_for_step (o : Infix.binop) (l r : Infix.expr) (N1 D1 N2 D2 : Z) :
  Quotient.stands_for (Infix.exact l) N1 D1 ->
  Quotient.stands_for (Infix.exact r) N2 D2 ->
  let ND :=
    match o with
    | Infix.Add => (N1 * D2 + N2 * D1, D1 * D2)
    | Infix.Sub => (N1 * D2 - N2 * D1, D1 * D2)
    | Infix.Mul => (N1 * N2, D1 * D2)
    | Infix.Div => if D2 =? 0 then (0, 0) else (N1 * D2, D1 * N2)
    end%Z in
  Quotient.stands_for (Infix.exact (Infix.Bin o l r)) (fst ND) (snd ND).
Proof.
  intros Hl Hr. cbn [Infix.exact].
  destruct (Infix.exact l) as [x|], (Infix.exact r) as [y|]; simpl in Hl, Hr.
  - destruct Hl as [HD1 H1], Hr as [HD2 H2].
    pose proof (stands_for_zero y N2 D2 (conj HD2 H2)) as Hzero.
    destruct o; cbn zeta.
    + cbn [fst snd Quotient.stands_for]. split; [lia|].
      rewrite Qred_correct, inject_Z_plus, !inject_Z_mult, <- H1, <- H2. ring.
    + cbn [fst snd Quotient.stands_for]. split; [lia|].
      rewrite Qred_correct. unfold Z.sub.
      rewrite inject_Z_plus, inject_Z_opp, !inject_Z_mult, <- H1, <- H2. ring.
    + cbn [fst snd Quotient.stands_for]. split; [lia|].
      rewrite Qred_correct, !inject_Z_mult, <- H1, <- H2. ring.
    + destruct (D2 =? 0)%Z eqn:E; [apply Z.eqb_eq in E; contradiction|].
      cbn [fst snd].
      destruct (Qeq_bool y 0) eqn:Ey.
      * apply Qeq_bool_iff in Ey. apply Hzero in Ey. simpl. lia.
      * assert (Hy : ~ Qeq y 0).
        { intros C. apply Qeq_bool_iff in C. congruence. }
        assert (HN2 : N2 <> 0%Z) by (intros C; apply Hy, Hzero, C).
        cbn [Quotient.stands_for]. split; [lia|].
        rewrite Qred_correct, !inject_Z_mult, <- H1, <- H2. field. exact Hy.
  - subst D2. destruct Hl as [HD1 H1].
    destruct o; cbn zeta; simpl; lia.
  - subst D1. destruct Hr as [HD2 H2].
    destruct o; cbn zeta; try (simpl; lia).
    destruct (D2 =? 0)%Z; simpl; lia.
  - subst D1 D2. destruct o; cbn zeta; simpl; lia.
Qed.

Lemma quotient_of_represents (e : Infix.expr) :
  esize e <= 4 -> Forall (fun z => In z card_values) (operands e) ->
  Quotient.represents e (Quotient.quotient_of e).
Proof.
  induction e as [z|o l IHl r IHr]; intros Hsize Hsmall.
  - inversion Hsmall as [|? ? Hz _]; subst.
    destruct (card_value_to_Z z Hz) as [E Hrange].
    unfold Quotient.represents. cbn [Quotient.quotient_of fst snd Infix.exact].
    rewrite E. change (Sint63.to_Z Quotient.one) with 1%Z.
    change (2 ^ 42)%Z with 4398046511104%Z.
    split; [lia|]. split; [lia|]. simpl. split; [lia|].
    unfold Qeq. simpl. lia.
  - simpl in Hsize, Hsmall. apply Forall_app in Hsmall. destruct Hsmall as [Hl Hr].
    pose proof (esize_pos l). pose proof (esize_pos r).
    assert (Fl : Quotient.both_fit (Quotient.quotient_of l) = true)
      by (apply small_in_range; [lia|assumption]).
    assert (Fr : Quotient.both_fit (Quotient.quotient_of r) = true)
      by (apply small_in_range; [lia|assumption]).
    destruct (IHl ltac:(lia) Hl) as (_ & _ & Sl).
    destruct (IHr ltac:(lia) Hr) as (_ & _ & Sr).
    destruct (combine_quotients_Z o _ _ Fl Fr) as (E & BN & BD).
    pose proof (stands_for_step o l r _ _ _ _ Sl Sr) as S. cbv zeta in S.
    unfold Quotient.represents. cbn [Quotient.quotient_of].
    split; [exact BN|]. split; [exact BD|].
    rewrite <- E in S. exact S.
Qed.

(** On an expression of at most four card values the solver's test holds
    exactly when the exact value is 24, and then no division of the
    expression is guarded. *)
Lemma within_eps_iff_exact_24 (e : Infix.expr) :
  esize e <= 4 -> Forall (fun z => In z card_values) (operands e) ->
  ((exists q, Infix.exact e = Some q /\ Qeq q 24) ->
   Infix.within_eps_of_24 (Infix.value e) = true /\ guarded e = true) /\
  (Infix.within_eps_of_24 (Infix.value e) = true ->
   exists q, Infix.exact e = Some q /\ Qeq q 24).
Proof.
  intros Hsize Hsmall.
  pose proof (small_agrees e Hsize Hsmall) as Ha.
  destruct (quotient_of_represents e Hsize Hsmall) as (BN & BD & S).
  unfold Quotient.agrees in Ha. cbv zeta in Ha.
  change (PrimFloat.ltb (PrimFloat.abs (PrimFloat.sub (Infix.value e) 24)) EPSILON)
    with (Infix.within_eps_of_24 (Infix.value e)) in Ha.
  destruct (Quotient.quotient_of e) as [n d]. cbn [fst snd] in *.
  rewrite to_Z_is_zero in Ha.
  assert (E24 : Sint63.to_Z (Uint63.mul Quotient.twenty_four d) =
                (24 * Sint63.to_Z d)%Z).
  { change 24%Z with (Sint63.to_Z Quotient.twenty_four).
    apply Sint63.to_Z_mul. rewrite Sint63.to_Z_min, Sint63.to_Z_max.
    change (Sint63.to_Z Quotient.twenty_four) with 24%Z.
    change (2 ^ 42)%Z with 4398046511104%Z in BD.
    change Uint63.wB with 9223372036854775808%Z.
    change (9223372036854775808 / 2)%Z with 4611686018427387904%Z.
    clear - BD. revert BD. generalize (Sint63.to_Z d). intros p BD. lia. }
  destruct (Infix.exact e) as [x|]; cbn [Quotient.stands_for] in S.
  - destruct S as [HD HS].
    assert (Hiff : Qeq x 24 <-> Sint63.to_Z n = (24 * Sint63.to_Z d)%Z).
    { split.
      - intros Hx. rewrite Hx in HS. revert HS. unfold Qeq. simpl. lia.
      - intros En. rewrite En, inject_Z_mult in HS.
        apply Qmult_inj_r in HS; [exact HS|].
        intros C. exact (HD (proj1 (inject_Z_zero _) C)). }
    destruct (Sint63.to_Z d =? 0)%Z eqn:Ed; [apply Z.eqb_eq in Ed; contradiction|].
    destruct (Sint63.eqbP n (Uint63.mul Quotient.twenty_four d)) as [En|En];
      rewrite E24 in En.
    + apply andb_true_iff in Ha. split.
      * intros _. exact Ha.
      * intros _. exists x. split; [reflexivity|]. now apply Hiff.
    + split.
      * intros (q & Hq & Hq24). injection Hq as <-.
        exfalso. apply En. now apply Hiff.
      * intros Hw. rewrite Hw in Ha. discriminate.
  - rewrite S in Ha. simpl in Ha. split.
    + intros (q & Hq & _). discriminate.
    + intros Hw. rewrite Hw in Ha. discriminate.
Qed.

(** ** Expressions and the trees of the solver *)

Lemma esize_operands (e : Infix.expr) : esize e = List.length (operands e).
Proof.
  induction e as [z|o l IHl r IHr]; simpl; [reflexivity|].
  rewrite length_app. lia.
Qed.

Lemma map_inj_on {A B : Type} (f : A -> B) (l l' : list A) :
  (forall x y, In x l -> In y l' -> f x = f y -> x = y) ->
  map f l = map f l' -> l = l'.
Proof.
  revert l'. induction l as [|a l IH]; intros [|b l'] Hinj H; try discriminate.
  - reflexivity.
  - simpl in H. injection H as Hab Hrest.
    f_equal.
    + apply Hinj; simpl; auto.
    + apply IH; [|exact Hrest]. intros x y Hx Hy. apply Hinj; simpl; auto.
Qed.

Lemma Permutation_map_inj_on {A B : Type} (f : A -> B) (l l' : list A) :
  (forall x y, In x l -> In y l' -> f x = f y -> x = y) ->
  Permutation (map f l) (map f l') -> Permutation l l'.
Proof.
  intros Hinj HP.
  apply Permutation_map_inv in HP. destruct HP as (l3 & E & HP).
  assert (El : l = l3).
  { apply (map_inj_on f); [|exact E].
    intros x y Hx Hy. apply Hinj; [exact Hx|].
    apply (Permutation_in y (Permutation_sym HP) Hy). }
  subst l3. now symmetry.
Qed.

Lemma Z2F_card_inj (x y : Z) :
  In x card_values -> In y card_values -> Z2F x = Z2F y -> x = y.
Proof.
  intros Hx Hy H. vm_compute in Hx, Hy.
  assert (Fx : F2Z (Z2F x) = x).
  { repeat (destruct Hx as [<-|Hx]; [reflexivity|]). contradiction. }
  assert (Fy : F2Z (Z2F y) = y).
  { repeat (destruct Hy as [<-|Hy]; [reflexivity|]). contradiction. }
  rewrite <- Fx, <- Fy. now rewrite H.
Qed.

Section ExpressionTreeFacts.

Variable Number_toString : float -> string.

Lemma val_tree_of (e : Infix.expr) :
  val (tree_of Number_toString e) = Infix.value e.
Proof.
  induction e as [z|o l IHl r IHr]; [reflexivity|].
  rewrite value_Bin. cbn [tree_of]. simpl. now rewrite IHl, IHr.
Qed.

Lemma leaves_tree_of (e : Infix.expr) :
  leaves (tree_of Number_toString e) = map Z2F (operands e).
Proof.
  induction e as [z|o l IHl r IHr]; [reflexivity|].
  cbn [operands]. rewrite map_app, <- IHl, <- IHr. apply leaves_newNode.
Qed.

Lemma built_tree_of (e : Infix.expr) :
  guarded e = true -> built Number_toString (tree_of Number_toString e).
Proof.
  induction e as [z|o l IHl r IHr]; intros Hg.
  - apply built_leaf.
  - cbn [guarded] in Hg. apply andb_true_iff in Hg. destruct Hg as [Hg Hdiv].
    apply andb_true_iff in Hg. destruct Hg as [Hl Hr].
    apply built_composite; auto.
    + destruct o; simpl; tauto.
    + unfold skipped. rewrite val_tree_of.
      destruct o; try reflexivity.
      apply negb_true_iff in Hdiv. simpl. exact Hdiv.
Qed.

Lemma expr_of_built (n : ExprNode) :
  built Number_toString n ->
  Forall (fun x => exists z, In z card_values /\ x = Z2F z) (leaves n) ->
  exists e, tree_of Number_toString e = n /\
            Forall (fun z => In z card_values) (operands e).
Proof.
  induction 1 as [v|a b o Ha IHa Hb IHb Ho Hs]; intros Hl.
  - simpl in Hl. inversion Hl as [|? ? [z [Hz ->]] _]; subst.
    exists (Infix.Num z). split; [reflexivity|]. now constructor.
  - rewrite leaves_newNode in Hl. apply Forall_app in Hl. destruct Hl as [Hla Hlb].
    destruct (IHa Hla) as (ea & <- & Hsa).
    destruct (IHb Hlb) as (eb & <- & Hsb).
    assert (Hop : exists o', o = operation_of o').
    { simpl in Ho. destruct Ho as [<-|[<-|[<-|[<-|[]]]]];
        [exists Infix.Add|exists Infix.Sub|exists Infix.Mul|exists Infix.Div];
        reflexivity. }
    destruct Hop as [o' ->].
    exists (Infix.Bin o' ea eb). split; [reflexivity|].
    cbn [operands]. apply Forall_app. now split.
Qed.

Lemma card_hand_solvable_iff (numbers : list Z) (r : SolverResult) :
  List.length numbers <= 4 ->
  Forall (fun z => (1 <= z <= 13)%Z) numbers ->
  solve24 Number_toString (map Z2F numbers) = Returns r ->
  (solvable r = true <-> makes_24 numbers).
Proof.
  intros Hlen Hrange Hr.
  rewrite (solve24_solvable_iff Number_toString _ r Hr).
  assert (Hcards : Forall (fun z => In z card_values) numbers).
  { eapply Forall_impl; [|exact Hrange]. intros z Hz. now apply card_values_range. }
  rewrite Forall_forall in Hcards.
  split.
  - intros (t & Hb & HP & Hnear).
    assert (Hl : Forall (fun x => exists z, In z card_values /\ x = Z2F z) (leaves t)).
    { apply Forall_forall. intros x Hx.
      apply (Permutation_in x HP) in Hx. apply in_map_iff in Hx.
      destruct Hx as (z & <- & Hz). exists z. split; [now apply Hcards|reflexivity]. }
    destruct (expr_of_built t Hb Hl) as (e & <- & Hsmall).
    rewrite leaves_tree_of in HP.
    assert (HPz : Permutation (operands e) numbers).
    { apply (Permutation_map_inj_on Z2F); [|exact HP].
      intros x y Hx Hy. apply Z2F_card_inj.
      - rewrite Forall_forall in Hsmall. now apply Hsmall.
      - now apply Hcards. }
    assert (Hsize : esize e <= 4).
    { rewrite esize_operands, (Permutation_length HPz). exact Hlen. }
    destruct (within_eps_iff_exact_24 e Hsize Hsmall) as [_ Hexact].
    unfold near24 in Hnear. rewrite val_tree_of in Hnear.
    destruct (Hexact Hnear) as (q & Hq & Hq24).
    exists e, q. auto.
  - intros (e & q & HPz & Hq & Hq24).
    assert (Hsmall : Forall (fun z => In z card_values) (operands e)).
    { apply Forall_forall. intros z Hz. apply Hcards.
      apply (Permutation_in z HPz Hz). }
    assert (Hsize : esize e <= 4).
    { rewrite esize_operands, (Permutation_length HPz). exact Hlen. }
    destruct (within_eps_iff_exact_24 e Hsize Hsmall) as [Hnear _].
    destruct (Hnear (ex_intro _ q (conj Hq Hq24))) as [Hw Hg].
    exists (tree_of Number_toString e). split; [now apply built_tree_of|].
    split.
    + rewrite leaves_tree_of. now apply Permutation_map.
    + unfold near24. rewrite val_tree_of. exact Hw.
Qed.

(** X12: for at most four card values, [solve24] reports the hand solvable
    exactly when some arithmetic expression over the values, each used once,
    equals 24 in exact rational arithmetic: on card values neither the
    binary64 rounding nor the tolerance [EPSILON] changes the answer. *)
Theorem solve24_decides_card_hands (numbers : list Z) :
  List.length numbers <= 4 ->
  Forall (fun z => (1 <= z <= 13)%Z) numbers ->
  exists r, solve24 Number_toString (map Z2F numbers) = Returns r /\
            (solvable r = true <-> makes_24 numbers).
Proof.
  intros Hlen Hrange.
  destruct (solve24_total Number_toString (map Z2F numbers)) as [r Hr].
  exists r. split; [exact Hr|].
  now apply card_hand_solvable_iff.
Qed.

End ExpressionTreeFacts.

(** * The dealer against exact arithmetic *)

Section DealtHands.

Variable Number_toString : float -> string.
Variable Math_random : nat -> float.

Local Abbreviation solve24 := (solve24 Number_toString).
Local Abbreviation deck_from := (deck_from Number_toString Math_random).
Local Abbreviation attempt := (attempt Number_toString Math_random).
Local Abbreviation drawCards := (drawCards Number_toString Math_random).
Local Abbreviation failed_attempts := (failed_attempts Number_toString Math_random).
Local Abbreviation unit_random := (unit_random Math_random).

(** The values of cards from a deck are card values. *)
Lemma card_numbers_of_hand (difficulty : Difficulty) (hand : list PlayingCard) :
  Forall (card_of_deck difficulty) hand ->
  map value hand = map Z2F (map (fun c => F2Z (value c)) hand) /\
  Forall (fun z => (1 <= z <= 13)%Z) (map (fun c => F2Z (value c)) hand).
Proof.
  pose proof (maxVal_bounds difficulty) as Hmax.
  induction 1 as [|c hand (i & Hi & Hv & _) _ [IHv IHr]]; [split; constructor|].
  assert (E : F2Z (value c) = Z.of_nat i)
    by (rewrite Hv; apply F2Z_number_of_nat; lia).
  cbn [map]. rewrite E. split.
  - f_equal; [exact Hv|exact IHv].
  - constructor; [lia|exact IHr].
Qed.

(** X13: a hand of four that [drawCards] returns can make 24 in exact
    arithmetic, each card used once; the only exception is the hand of the
    four aces returned after 100 failed attempts, which cannot. *)
Theorem drawCards_hand_makes_24_unless_fallback (difficulty : Difficulty) (k : nat) :
  unit_random ->
  exists hand k',
    drawCards 4 difficulty k = Returns (hand, k') /\
    List.length hand = 4 /\
    (makes_24 (map (fun c => F2Z (value c)) hand) \/
     (map (fun c => F2Z (value c)) hand = [1; 1; 1; 1]%Z /\
      ~ makes_24 [1; 1; 1; 1]%Z /\
      exists k0, failed_attempts 4 difficulty 100 k k0)).
Proof.
  intros Hrand.
  pose proof (maxVal_bounds difficulty) as Hmax.
  destruct (drawLoop_spec Number_toString Math_random Hrand 4 difficulty
              100 101 0 k) as (hand & k' & Hdraw & Hcases); [reflexivity|lia|].
  exists hand, k'. split; [exact Hdraw|].
  destruct Hcases as [(m & k0 & res & Hm & Hfail & Hatt & Hs)|(k0 & Hfail & Hfb)].
  - destruct (attempt_spec Number_toString Math_random Hrand 4 difficulty k0)
      as (shuffled & result & HP & Hres & Hatt').
    rewrite Hatt in Hatt'. injection Hatt' as -> -> _.
    rewrite (slice0_firstn 4 shuffled) in * by lia.
    change (Z.to_nat 4) with 4 in *.
    assert (Hcards : Forall (card_of_deck difficulty) (firstn 4 shuffled)).
    { apply Forall_forall. intros c Hc. apply In_firstn in Hc.
      pose proof (deck_from_cards_wf Number_toString Math_random difficulty k0) as Hall.
      rewrite Forall_forall in Hall. apply Hall.
      eapply Permutation_in; [symmetry; exact HP|exact Hc]. }
    assert (Hlen : List.length (firstn 4 shuffled) = 4).
    { rewrite length_firstn, <- (Permutation_length HP), deck_from_length. lia. }
    split; [exact Hlen|]. left.
    destruct (card_numbers_of_hand difficulty _ Hcards) as [Hv Hr].
    rewrite Hv in Hres.
    apply (card_hand_solvable_iff Number_toString _ result); auto.
    rewrite length_map. lia.
  - rewrite fallback_spec in Hfb. injection Hfb as <- _.
    rewrite (slice0_firstn 4 (deck_from difficulty k0)) by lia.
    assert (Hv : map (fun c => F2Z (value c)) (firstn (Z.to_nat 4) (deck_from difficulty k0)) =
                 [1; 1; 1; 1]%Z)
      by (destruct difficulty; reflexivity).
    split; [destruct difficulty; reflexivity|].
    right. split; [exact Hv|]. split; [|now exists k0].
    intros Hmakes.
    assert (Hones : solve24 (map Z2F [1; 1; 1; 1]%Z) =
                    Returns (MkSolverResult false None None))
      by (vm_compute; reflexivity).
    apply (card_hand_solvable_iff Number_toString _ _) in Hones.
    + apply Hones in Hmakes. discriminate.
    + simpl. lia.
    + repeat constructor; lia.
Qed.

End DealtHands.

(** * More instances *)

Lemma solve24_solvable_order_independent_witness :
  Permutation [4; 1; 8; 7]%float [7; 8; 1; 4]%float /\
  solvable (MkSolverResult true (Some "8 × (7 - 4 × 1)"%string) (Some "4 × 1"%string)) =
  solvable (MkSolverResult true (Some "8 × 4 - (7 + 1)"%string) (Some "8 × 4"%string)).
Proof.
  assert (HP : Permutation [4; 1; 8; 7]%float [7; 8; 1; 4]%float).
  { transitivity [1; 8; 7; 4]%float.
    - apply (Permutation_cons_append [1; 8; 7]%float 4%float).
    - transitivity [8; 7; 4; 1]%float.
      + apply (Permutation_cons_append [8; 7; 4]%float 1%float).
      + transitivity [7; 8; 4; 1]%float; [apply perm_swap|].
        do 2 apply perm_skip. apply perm_swap. }
  split; [exact HP|].
  apply (solve24_solvable_order_independent integer_toString
           [4; 1; 8; 7]%float [7; 8; 1; 4]%float).
  - exact HP.
  - vm_compute. reflexivity.
  - vm_compute. reflexivity.
Defined.

Lemma solve24_empty_hint_iff_single_witness :
  1 <= List.length [24%float] /\
  (firstStepHint (MkSolverResult true (Some "24"%string) (Some ""%string)) = Some ""%string <->
   List.length [24%float] = 1).
Proof.
  apply (solve24_empty_hint_iff_single integer_toString [24]%float).
  - vm_compute. reflexivity.
  - reflexivity.
Defined.

Lemma solve24_texts_hold_no_ascii_operator_witness :
  has_char "*" "8 ÷ (3 - 8 ÷ 3)" = false /\ has_char "/" "8 ÷ (3 - 8 ÷ 3)" = false.
Proof.
  destruct (solve24_texts_hold_no_ascii_operator integer_toString [3; 3; 8; 8]%float
              (MkSolverResult true (Some "8 ÷ (3 - 8 ÷ 3)"%string) (Some "8 ÷ 3"%string))
              "8 ÷ (3 - 8 ÷ 3)"%string)
    as (H1 & H2 & _).
  - vm_compute. reflexivity.
  - reflexivity.
  - split; assumption.
Defined.

Lemma shuffleDeck_rearranges_witness :
  exists shuffled,
    shuffleDeck (fun _ => 0.5%float)
      (deck_from integer_toString (fun _ => 0.5%float) Easy 0) 40 =
      Returns (shuffled, 40 + 39) /\
    Permutation (deck_from integer_toString (fun _ => 0.5%float) Easy 0) shuffled.
Proof.
  destruct (shuffleDeck_rearranges (fun _ => 0.5%float)
              (deck_from integer_toString (fun _ => 0.5%float) Easy 0) 40
              unit_random_half)
    as (shuffled & Hsh & HP & _).
  - rewrite deck_from_length. simpl. lia.
  - exists shuffled. rewrite deck_from_length in Hsh. split; [exact Hsh|exact HP].
Defined.

Lemma drawCards_hand_of_distinct_cards_witness :
  exists hand k',
    drawCards integer_toString (fun _ => 0.5%float) 4 Hard 0 = Returns (hand, k') /\
    NoDup (map (fun c => (value c, suit c)) hand) /\
    List.length hand = 4.
Proof.
  destruct (drawCards_hand_of_distinct_cards integer_toString (fun _ => 0.5%float)
              4 Hard 0 unit_random_half)
    as (hand & k' & Hdraw & Hnodup & _ & Hlen).
  exists hand, k'. split; [exact Hdraw|]. split; [exact Hnodup|].
  apply Hlen. lia.
Defined.

Lemma drawCards_fewer_than_two_cards_witness :
  drawCards integer_toString (fun _ => 0.5%float) 1 Easy 0 =
  Returns ([newCard integer_toString 1 Hearts 0.5%float], 100 * 79 + 40).
Proof.
  destruct (drawCards_fewer_than_two_cards integer_toString (fun _ => 0.5%float)
              1 Easy 0 unit_random_half (or_intror eq_refl))
    as [_ H].
  exact H.
Defined.

(** ** More examples *)

(** Letters and signs outside the class are dropped, also the signs of a
    displayed solution. *)
Example sanitize_examples :
  sanitize "alert(1); 2 * (3+4) / 1.5" = "(1) 2 * (3+4) / 1.5"%string /\
  sanitize "8 × (7 - 4 × 1)" = "8  (7 - 4  1)"%string /\
  sanitize "abc" = ""%string.
Proof. repeat split; vm_compute; reflexivity. Qed.

Lemma solve24_decides_card_hands_witness :
  exists r,
    solve24 integer_toString (map Z2F [1; 5; 5; 5]%Z) = Returns r /\
    (solvable r = true <-> makes_24 [1; 5; 5; 5]%Z).
Proof.
  apply (solve24_decides_card_hands integer_toString [1; 5; 5; 5]%Z).
  - simpl. lia.
  - repeat constructor; lia.
Defined.

Lemma drawCards_hand_makes_24_unless_fallback_witness :
  exists hand k',
    drawCards integer_toString (fun _ => 0.5%float) 4 Easy 0 = Returns (hand, k') /\
    List.length hand = 4 /\
    (makes_24 (map (fun c => F2Z (value c)) hand) \/
     (map (fun c => F2Z (value c)) hand = [1; 1; 1; 1]%Z /\
      ~ makes_24 [1; 1; 1; 1]%Z /\
      exists k0,
        failed_attempts integer_toString (fun _ => 0.5%float) 4 Easy 100 0 k0)).
Proof.
  apply (drawCards_hand_makes_24_unless_fallback integer_toString
           (fun _ => 0.5%float) Easy 0).
  exact unit_random_half.
Defined.
